(** * rubix: application of a point-spread function to a spectral datacube

    Shallow embedding of [notebooks/psf.ipynb] ([_convolve_plane], [apply_psf])
    together with the array operations of [jax.numpy] and
    [jax.scipy.signal] that the notebook calls.

    Arrays are modelled as the library has them: a shape (tuple of axis
    lengths) and the entries in row-major order.  The entries live in an
    arbitrary commutative ring, so that every statement about values holds
    over exact arithmetic; the examples instantiate the ring with [Z] and the
    kernel builder with the real numbers.  One sample runs the same
    definitions on machine floating-point numbers, where a statement that
    drops zero-weight terms needs the exact arithmetic. *)

From Stdlib Require Import List ZArith Lia Bool Arith Ring.
From Stdlib Require Import QArith Qreals Reals Lra.
From Stdlib Require Import Floats.PrimFloat.
Import ListNotations.

Set Implicit Arguments.
Close Scope Q_scope.
Close Scope R_scope.
Open Scope nat_scope.

(** ** Scalars *)

Class Scalar (R : Type) : Type := {
  szero : R;
  sone  : R;
  sadd  : R -> R -> R;
  smul  : R -> R -> R;
  ssub  : R -> R -> R;
  sopp  : R -> R
}.

#[export] Instance Z_scalar : Scalar Z :=
  {| szero := 0%Z; sone := 1%Z; sadd := Z.add; smul := Z.mul;
     ssub := Z.sub; sopp := Z.opp |}.

#[export] Instance R_scalar : Scalar R :=
  {| szero := 0%R; sone := 1%R; sadd := Rplus; smul := Rmult;
     ssub := Rminus; sopp := Ropp |}.

(** The binary floating-point numbers of the machine: the arithmetic of the
    arrays of [jax.numpy], with its infinities and its NaN. *)
#[export] Instance float_scalar : Scalar float :=
  {| szero := PrimFloat.zero; sone := PrimFloat.one;
     sadd := PrimFloat.add; smul := PrimFloat.mul;
     ssub := PrimFloat.sub; sopp := PrimFloat.opp |}.

(** ** Results and exceptions *)

(** The Python exceptions that the modelled operations raise. *)
Inductive exn : Type := IndexError | ValueError | TypeError | NameError.

Inductive result (E A : Type) : Type :=
| Ok (a : A)
| Raise (e : E).

Arguments Ok {E A} a.
Arguments Raise {E A} e.

Definition bind {E A B} (m : result E A) (f : A -> result E B) : result E B :=
  match m with
  | Ok a => f a
  | Raise e => Raise e
  end.

Notation "x <- m ;; k" := (bind m (fun x => k))
  (at level 61, m at next level, right associativity).

(** A list comprehension [[f i for i in l]]: the elements are evaluated from
    left to right and the first exception ends the evaluation. *)
Fixpoint comprehension {E A B} (f : A -> result E B) (l : list A)
  : result E (list B) :=
  match l with
  | [] => Ok []
  | x :: l' =>
      y <- f x ;;
      ys <- comprehension f l' ;;
      Ok (y :: ys)
  end.

Definition is_ok {E A} (m : result E A) : bool :=
  match m with Ok _ => true | Raise _ => false end.

(** [range(n)] *)
Definition range (n : nat) : list nat := seq 0 n.

(** [t[i]] on a tuple: [IndexError] when [i] is out of range. *)
Definition tuple_get (t : list nat) (i : nat) : result exn nat :=
  match nth_error t i with
  | Some n => Ok n
  | None => Raise IndexError
  end.

(** ** Arrays *)

Record ndarray (R : Type) : Type := mk_ndarray {
  shape : list nat;
  data  : list R
}.

Arguments mk_ndarray {R} shape data.

(** Number of entries of an array of a given shape ([a.size]). *)
Definition numel (sh : list nat) : nat := fold_right Nat.mul 1 sh.

(** All the multi-indices of a shape, in row-major order. *)
Fixpoint indices (sh : list nat) : list (list nat) :=
  match sh with
  | [] => [[]]
  | n :: sh' => flat_map (fun i => map (cons i) (indices sh')) (seq 0 n)
  end.

(** Position of a multi-index in the row-major layout. *)
Fixpoint ravel (sh idx : list nat) : nat :=
  match sh, idx with
  | _ :: sh', i :: idx' => i * numel sh' + ravel sh' idx'
  | _, _ => 0
  end.

Fixpoint in_bounds (sh idx : list nat) : bool :=
  match sh, idx with
  | [], [] => true
  | n :: sh', i :: idx' => (i <? n) && in_bounds sh' idx'
  | _, _ => false
  end.

Definition shape_eqb (s t : list nat) : bool :=
  if list_eq_dec Nat.eq_dec s t then true else false.

Section Arrays.
Context {R : Type} `{Scalar R}.

Definition ndim (a : ndarray R) : nat := length (shape a).
Definition size (a : ndarray R) : nat := numel (shape a).

(** The representation invariant of an array. *)
Definition wf (a : ndarray R) : Prop := length (data a) = size a.

(** The array of shape [sh] whose entry at [idx] is [f idx]. *)
Definition mkarray (sh : list nat) (f : list nat -> R) : ndarray R :=
  mk_ndarray sh (map f (indices sh)).

(** [a[idx]] for a full multi-index. *)
Definition item (a : ndarray R) (idx : list nat) : R :=
  nth (ravel (shape a) idx) (data a) szero.

Definition rsum (l : list R) : R := fold_right sadd szero l.

(** The sum of [f 0], ..., [f (n - 1)]. *)
Definition sum_upto (n : nat) (f : nat -> R) : R := rsum (map f (seq 0 n)).

(** *** [jax.numpy] *)

(** [a[:, :, i]] with a Python integer [i >= 0]: the axis of index 2 is
    removed.  [apply_psf] only takes [i] from [range(a.shape[2])]. *)
Definition getitem (a : ndarray R) (i : nat) : result exn (ndarray R) :=
  match shape a with
  | X :: Y :: C :: rest =>
      if i <? C then
        Ok (mkarray (X :: Y :: rest)
              (fun idx => match idx with
                          | x :: y :: r => item a (x :: y :: i :: r)
                          | _ => szero
                          end))
      else Raise IndexError
  | _ => Raise IndexError
  end.

(** [jnp.array(l)] on a list of arrays: the arrays are stacked along a new
    leading axis; they must have one shape.  The empty list gives the
    one-dimensional array of shape [(0,)]. *)
Definition jnp_array (l : list (ndarray R)) : result exn (ndarray R) :=
  match l with
  | [] => Ok (mk_ndarray [0] [])
  | a :: rest =>
      if forallb (fun b => shape_eqb (shape b) (shape a)) rest then
        Ok (mk_ndarray (length l :: shape a) (concat (map (@data R) l)))
      else Raise ValueError
  end.

(** Position of axis [d] in the permutation [axes]. *)
Fixpoint axis_pos (d : nat) (axes : list nat) : nat :=
  match axes with
  | [] => 0
  | ax :: axes' => if ax =? d then 0 else S (axis_pos d axes')
  end.

(** [jnp.transpose(a, axes)]: axis [k] of the result is axis [axes[k]] of
    [a].  An axis that is out of bounds for [a] is a [ValueError]; axes that
    are in bounds but are not a permutation of the dimensions of [a] are a
    [TypeError]. *)
Definition transpose (a : ndarray R) (axes : list nat)
  : result exn (ndarray R) :=
  if existsb (fun ax => ndim a <=? ax) axes then Raise ValueError
  else if (length axes =? ndim a)
          && forallb (fun d => existsb (Nat.eqb d) axes) (seq 0 (ndim a))
  then
    Ok (mkarray (map (fun ax => nth ax (shape a) 0) axes)
          (fun idx =>
             item a (map (fun d => nth (axis_pos d axes) idx 0)
                       (seq 0 (ndim a)))))
  else Raise TypeError.

(** *** [jax.scipy.signal.convolve2d]

    The notebook calls [convolve2d(plane, kernel, mode="same")] with the
    default [boundary="fill"], [fillvalue=0]. *)

Definition in_range (i : Z) (n : nat) : bool :=
  ((0 <=? i) && (i <? Z.of_nat n))%Z.

(** Entry [(i, j)] of a two-dimensional array extended by the fill value 0
    outside of its bounds. *)
Definition item_fill (a : ndarray R) (i j : Z) : R :=
  match shape a with
  | [X; Y] =>
      if in_range i X && in_range j Y
      then item a [Z.to_nat i; Z.to_nat j]
      else szero
  | _ => szero
  end.

(** Entry [(m, n)] of the full discrete linear convolution of [in1] with
    [in2]: the sum over the entries [(a, b)] of [in1] of
    [in1[a, b] * in2[m - a, n - b]]. *)
Definition convolve_full (in1 in2 : ndarray R) (m n : nat) : R :=
  match shape in1 with
  | [X; Y] =>
      sum_upto X (fun a =>
        sum_upto Y (fun b =>
          smul (item in1 [a; b])
               (item_fill in2 (Z.of_nat m - Z.of_nat a)
                              (Z.of_nat n - Z.of_nat b))))
  | _ => szero
  end.

(** First index of the window of length [new] centred in an axis of length
    [full]. *)
Definition centered_start (full new : nat) : nat := (full - new) / 2.

(** The part of the full convolution that has the shape [(X1, Y1)] of [in1]
    and is centred in it; [(X2, Y2)] is the shape of [in2]. *)
Definition same_mode (in1 in2 : ndarray R) (X1 Y1 X2 Y2 : nat) : ndarray R :=
  mkarray [X1; Y1]
    (fun idx =>
       match idx with
       | [i; j] =>
           convolve_full in1 in2
             (i + centered_start (X1 + X2 - 1) X1)
             (j + centered_start (Y1 + Y2 - 1) Y1)
       | _ => szero
       end).

(** [convolve2d(in1, in2, mode="same")]: the output has the shape of [in1]
    and is centred with respect to the full convolution.  The library raises
    [ValueError] for inputs that are not two-dimensional, for inputs without
    entries, and for a pair of inputs of which neither is at most as large
    as the other along both axes.  Where [in2] is the larger input the
    library swaps the two before it convolves them; the convolution is
    commutative and the result is the same array. *)
Definition convolve2d (in1 in2 : ndarray R) : result exn (ndarray R) :=
  match shape in1, shape in2 with
  | [X1; Y1], [X2; Y2] =>
      if (size in1 =? 0) || (size in2 =? 0) then Raise ValueError
      else
        let no_swap := (X2 <=? X1) && (Y2 <=? Y1) in
        let swap := (X1 <=? X2) && (Y1 <=? Y2) in
        if negb (no_swap || swap) then Raise ValueError
        else Ok (same_mode in1 in2 X1 Y1 X2 Y2)
  | _, _ => Raise ValueError
  end.

(** The outcome of [convolve2d] in terms of the shapes of its arguments:
    the shape of the result, or the exception. *)
Definition convolve2d_outcome (s1 s2 : list nat) : result exn (list nat) :=
  match s1, s2 with
  | [X1; Y1], [X2; Y2] =>
      if (numel s1 =? 0) || (numel s2 =? 0) then Raise ValueError
      else if negb ((X2 <=? X1) && (Y2 <=? Y1) || (X1 <=? X2) && (Y1 <=? Y2))
      then Raise ValueError
      else Ok [X1; Y1]
  | _, _ => Raise ValueError
  end.

(** *** The notebook *)

(** [_convolve_plane(plane, kernel)] *)
Definition _convolve_plane (plane kernel : ndarray R)
  : result exn (ndarray R) :=
  convolve2d plane kernel.

(** [apply_psf(datacube, psf_kernel)] *)
Definition apply_psf (datacube psf_kernel : ndarray R)
  : result exn (ndarray R) :=
  let datacube_dimensions := shape datacube in
  n <- tuple_get datacube_dimensions 2 ;;
  planes <- comprehension
              (fun i =>
                 plane <- getitem datacube i ;;
                 _convolve_plane plane psf_kernel)
              (range n) ;;
  convolved <- jnp_array planes ;;
  transposed <- transpose convolved [1; 2; 0] ;;
  Ok transposed.

(** The outcome of [apply_psf] in terms of the shapes of its arguments. *)
Definition apply_psf_outcome (sh ksh : list nat) : result exn (list nat) :=
  match sh with
  | X :: Y :: C :: rest =>
      match C with
      | 0 => Raise ValueError
      | S _ =>
          match convolve2d_outcome (X :: Y :: rest) ksh with
          | Ok _ => Ok [X; Y; C]
          | Raise e => Raise e
          end
      end
  | _ => Raise IndexError
  end.

Definition map_result {E A B} (f : A -> B) (m : result E A) : result E B :=
  match m with
  | Ok a => Ok (f a)
  | Raise e => Raise e
  end.

End Arrays.

(** ** Elementwise arithmetic of [jax.numpy]

    [s * a] for a scalar [s], and [a + b] for two arrays of one shape. *)
Section Elementwise.
Context {R : Type} `{Scalar R}.

Definition scale (s : R) (a : ndarray R) : ndarray R :=
  mk_ndarray (shape a) (map (smul s) (data a)).

Definition add (a b : ndarray R) : ndarray R :=
  mk_ndarray (shape a)
    (map (fun p => sadd (fst p) (snd p)) (combine (data a) (data b))).

End Elementwise.

(** ** The convolution as the specification words it

    The output plane has the shape of the input plane; the centre of the
    kernel is aligned to each output pixel, and what falls out of the plane
    counts as zero. *)
Section SameSize.
Context {R : Type} `{Scalar R}.

(** Index of the centre entry along an axis of length [k]: the middle entry
    of an odd axis, the lower of the two middle entries of an even one. *)
Definition center (k : nat) : nat := (k - 1) / 2.

(** The plane extended by zeros on all sides. *)
Definition zero_padded (plane : ndarray R) (i j : Z) : R :=
  item_fill plane i j.

Definition same_convolution (plane kernel : ndarray R) (x y : nat) : R :=
  match shape kernel with
  | [kh; kw] =>
      sum_upto kh (fun a =>
        sum_upto kw (fun b =>
          smul (item kernel [a; b])
               (zero_padded plane
                  (Z.of_nat x + Z.of_nat (center kh) - Z.of_nat a)
                  (Z.of_nat y + Z.of_nat (center kw) - Z.of_nat b))))
  | _ => szero
  end.

(** The plane of channel [c]: entry [(x, y)] is entry [(x, y, c)] of the
    datacube. *)
Definition channel (datacube : ndarray R) (c : nat) : ndarray R :=
  mkarray (firstn 2 (shape datacube)) (fun p => item datacube (p ++ [c])).

(** The planes of a datacube collected in channel order: entry [(c, x, y)]
    is entry [(x, y)] of [plane c]. *)
Definition collected (X Y C : nat) (plane : nat -> ndarray R) : ndarray R :=
  mkarray [C; X; Y]
    (fun idx =>
       match idx with
       | [c; x; y] => item (plane c) [x; y]
       | _ => szero
       end).

(** The axes [(C, X, Y)] put back in the order [(X, Y, C)]. *)
Definition reordered (X Y C : nat) (a : ndarray R) : ndarray R :=
  mkarray [X; Y; C]
    (fun idx =>
       match idx with
       | [x; y; c] => item a [c; x; y]
       | _ => szero
       end).

(** The datacube of shape [(X, Y, C)] whose channel [c] is the same-size
    convolution of channel [c] of [datacube]. *)
Definition blurred (datacube kernel : ndarray R) : ndarray R :=
  mkarray (shape datacube)
    (fun idx =>
       match idx with
       | [x; y; c] => same_convolution (channel datacube c) kernel x y
       | _ => szero
       end).

(** A kernel that is zero except for a single 1 at its centre. *)
Definition identity_kernel (kh kw : nat) : ndarray R :=
  mkarray [kh; kw]
    (fun idx =>
       match idx with
       | [a; b] => if (a =? center kh) && (b =? center kw)
                   then sone else szero
       | _ => szero
       end).

End SameSize.

(** ** Arrays as objects in a store

    Python names designate objects.  A store is the list of the array objects
    allocated so far, a reference is a position in it.  Every operation of
    [jax.numpy] reads its operands and allocates its result. *)
Declare Scope store_scope.

Module Store.

Definition loc : Type := nat.
Definition heap (R : Type) : Type := list (ndarray R).
Definition M (R A : Type) : Type := heap R -> result exn A * heap R.

Definition ret {R A} (a : A) : M R A := fun h => (Ok a, h).

Definition bind {R A B} (m : M R A) (f : A -> M R B) : M R B :=
  fun h =>
    match m h with
    | (Ok a, h') => f a h'
    | (Raise e, h') => (Raise e, h')
    end.

Definition lift {R A} (r : result exn A) : M R A := fun h => (r, h).

Definition alloc {R} (a : ndarray R) : M R loc :=
  fun h => (Ok (length h), h ++ [a]).

(** A reference always designates an object in Python; a position outside
    of the store is given the outcome [NameError]. *)
Definition load {R} (l : loc) : M R (ndarray R) :=
  fun h =>
    match nth_error h l with
    | Some a => (Ok a, h)
    | None => (Raise NameError, h)
    end.

Notation "x <- m ;; k" := (bind m (fun x => k))
  (at level 61, m at next level, right associativity) : store_scope.

(** [h'] is [h] followed by newly allocated objects. *)
Definition extends {R} (h h' : heap R) : Prop := exists fresh, h' = h ++ fresh.

(** A computation that only allocates. *)
Definition grows {R A} (m : M R A) : Prop := forall h, extends h (snd (m h)).

Section WithScalar.
Context {R : Type} `{Scalar R}.
Local Open Scope store_scope.

Fixpoint comprehension {A B} (f : A -> M R B) (l : list A) : M R (list B) :=
  match l with
  | [] => ret []
  | x :: l' =>
      y <- f x ;;
      ys <- comprehension f l' ;;
      ret (y :: ys)
  end.

Definition get_shape (l : loc) : M R (list nat) :=
  a <- load l ;; ret (shape a).

Definition getitem_ref (l : loc) (i : nat) : M R loc :=
  a <- load l ;;
  r <- lift (getitem a i) ;;
  alloc r.

Definition convolve2d_ref (l1 l2 : loc) : M R loc :=
  in1 <- load l1 ;;
  in2 <- load l2 ;;
  r <- lift (convolve2d in1 in2) ;;
  alloc r.

Definition jnp_array_ref (ls : list loc) : M R loc :=
  arrays <- comprehension load ls ;;
  r <- lift (jnp_array arrays) ;;
  alloc r.

Definition transpose_ref (l : loc) (axes : list nat) : M R loc :=
  a <- load l ;;
  r <- lift (transpose a axes) ;;
  alloc r.

Definition _convolve_plane (plane kernel : loc) : M R loc :=
  convolve2d_ref plane kernel.

Definition apply_psf (datacube psf_kernel : loc) : M R loc :=
  datacube_dimensions <- get_shape datacube ;;
  n <- lift (tuple_get datacube_dimensions 2) ;;
  planes <- comprehension
              (fun i =>
                 plane <- getitem_ref datacube i ;;
                 _convolve_plane plane psf_kernel)
              (range n) ;;
  convolved <- jnp_array_ref planes ;;
  transposed <- transpose_ref convolved [1; 2; 0] ;;
  ret transposed.

End WithScalar.
End Store.

(** ** The kernel builder

    [rubix.telescope.psf.kernels.gaussian_kernel_2d] is imported by the
    notebook; its parameters are kept as rationals so that a non-integer
    extent can be told from an integer one, and its entries are real
    numbers. *)

(** The error kinds of the specification. *)
Inductive error_kind : Type := InvalidParameter | ShapeMismatch.

Definition is_integer (q : Q) : bool :=
  (Qnum q mod Z.pos (Qden q) =? 0)%Z.

(** The integer that an integer-valued rational denotes. *)
Definition to_int (q : Q) : Z := (Qnum q / Z.pos (Qden q))%Z.

Definition is_positive (q : Q) : bool := negb (Qle_bool q 0).

(** Density of the isotropic Gaussian of standard deviation [sigma] at the
    offset [(dx, dy)] from its centre. *)
Definition gaussian_density (sigma dx dy : R) : R :=
  (/ (2 * PI * (sigma * sigma)) *
   exp (- ((dx * dx + dy * dy) / (2 * (sigma * sigma)))))%R.

(** Modelled from the spec: [gaussian_kernel_2d], whose module
    [rubix/telescope/psf/kernels.py] is not among the sources.  The
    parameters are checked first; the density is then evaluated on the integer
    grid [0..height-1] x [0..width-1] around the midpoint
    [(height/2, width/2)], and every entry is divided by the sum of the
    grid. *)
Definition gaussian_kernel_2d (height width spread : Q)
  : result error_kind (ndarray R) :=
  if is_integer height && is_integer width &&
     is_positive height && is_positive width && is_positive spread
  then
    let h := Z.to_nat (to_int height) in
    let w := Z.to_nat (to_int width) in
    let g := fun idx : list nat =>
               match idx with
               | [i; j] =>
                   gaussian_density (Q2R spread)
                     (INR i - INR h / 2)%R (INR j - INR w / 2)%R
               | _ => 0%R
               end in
    let total := rsum (map g (indices [h; w])) in
    Ok (mkarray [h; w] (fun idx => (g idx / total)%R))
  else Raise InvalidParameter.

(** ** Sample arrays over the integers *)

Definition cubeZ : ndarray Z :=
  mk_ndarray [2; 2; 2] [1; 10; 2; 20; 3; 30; 4; 40]%Z.
Definition cubeZ' : ndarray Z :=
  mk_ndarray [2; 2; 2] [1; 5; 2; 6; 3; 7; 4; 8]%Z.
Definition kernZ : ndarray Z :=
  mk_ndarray [3; 3] [0; 1; 0; 1; 2; 1; 0; 1; 0]%Z.
Definition columnZ : ndarray Z := mk_ndarray [3; 1; 1] [1; 2; 3]%Z.
Definition rowkernZ : ndarray Z := mk_ndarray [1; 3] [0; 1; 0]%Z.
Definition pixelZ : ndarray Z := mk_ndarray [1; 1; 1] [5]%Z.
Definition imageZ : ndarray Z := mk_ndarray [2; 2] [1; 2; 3; 4]%Z.
Definition emptyZ : ndarray Z := mk_ndarray [2; 2; 0] [].
Definition hypercubeZ : ndarray Z := mk_ndarray [1; 1; 1; 2] [5; 6]%Z.
Definition vectorZ : ndarray Z := mk_ndarray [3] [1; 2; 1]%Z.
Definition edgeZ : ndarray Z :=
  mk_ndarray [3; 3] [0; 0; 0; 0; 0; 3; 0; 0; 0]%Z.
Definition boxZ : ndarray Z :=
  mk_ndarray [3; 3] [1; 1; 1; 1; 1; 1; 1; 1; 1]%Z.
Definition fieldZ : ndarray Z :=
  mk_ndarray [3; 3; 1] [4; 4; 4; 4; 4; 4; 4; 4; 9]%Z.
Definition quadZ : ndarray Z := mk_ndarray [2; 2] [1; 2; 3; 4]%Z.

(** A sample datacube of floating-point numbers with an infinite entry. *)
Definition rowF : ndarray float :=
  mk_ndarray [1; 2; 1] [PrimFloat.infinity; 5%float].


(** * Properties *)

Unset Implicit Arguments.

(** ** Lists laid out in blocks of one length *)

Lemma nth_concat_uniform {A} (P : nat) (ls : list (list A)) c r d :
  Forall (fun b => length b = P) ls ->
  c < length ls -> r < P ->
  nth (c * P + r) (concat ls) d = nth r (nth c ls []) d.
Proof.
  intros Hall. revert c.
  induction Hall as [|b ls Hb Hall IH]; intros c Hc Hr; simpl in *.
  - lia.
  - destruct c as [|c]; simpl.
    + apply app_nth1. lia.
    + rewrite app_nth2 by lia.
      replace (P + c * P + r - length b) with (c * P + r) by lia.
      apply IH; lia.
Qed.

Lemma length_concat_uniform {A} (P : nat) (ls : list (list A)) :
  Forall (fun b => length b = P) ls ->
  length (concat ls) = length ls * P.
Proof.
  induction 1 as [|b ls Hb Hall IH]; simpl; [reflexivity|].
  rewrite length_app, IH, Hb. reflexivity.
Qed.

Lemma length_indices sh : length (indices sh) = numel sh.
Proof.
  induction sh as [|n sh IH]; simpl; [reflexivity|].
  rewrite flat_map_concat_map.
  rewrite length_concat_uniform with (P := numel sh).
  - now rewrite length_map, length_seq.
  - apply Forall_forall. intros b Hb.
    apply in_map_iff in Hb. destruct Hb as [i [<- _]].
    now rewrite length_map.
Qed.

Lemma ravel_lt sh idx :
  in_bounds sh idx = true -> ravel sh idx < numel sh.
Proof.
  revert idx. induction sh as [|n sh IH]; intros [|i idx] Hb; simpl in *;
    try discriminate; try lia.
  apply andb_true_iff in Hb. destruct Hb as [Hi Hb].
  apply Nat.ltb_lt in Hi. specialize (IH _ Hb). nia.
Qed.

Lemma nth_indices sh idx d :
  in_bounds sh idx = true -> nth (ravel sh idx) (indices sh) d = idx.
Proof.
  revert idx d. induction sh as [|n sh IH]; intros [|i idx] d Hb; simpl in *;
    try discriminate; try reflexivity.
  apply andb_true_iff in Hb. destruct Hb as [Hi Hb].
  apply Nat.ltb_lt in Hi.
  rewrite flat_map_concat_map.
  rewrite nth_concat_uniform.
  - rewrite nth_indep with (d' := map (cons i) (indices sh))
      by (now rewrite length_map, length_seq).
    rewrite map_nth with (f := fun i => map (cons i) (indices sh)).
    rewrite seq_nth by assumption. simpl.
    rewrite nth_indep with (d' := i :: idx)
      by (rewrite length_map, length_indices; now apply ravel_lt).
    rewrite map_nth with (f := cons i). f_equal. now apply IH.
  - apply Forall_forall. intros b Hin.
    apply in_map_iff in Hin. destruct Hin as [j [<- _]].
    now rewrite length_map, length_indices.
  - now rewrite length_map, length_seq.
  - now apply ravel_lt.
Qed.

Lemma in_indices sh idx :
  In idx (indices sh) -> in_bounds sh idx = true.
Proof.
  revert idx. induction sh as [|n sh IH]; intros idx Hin; simpl in *.
  - destruct Hin as [<- | []]. reflexivity.
  - apply in_flat_map in Hin. destruct Hin as [i [Hi Hin]].
    apply in_map_iff in Hin. destruct Hin as [idx' [<- Hin]].
    apply in_seq in Hi. simpl.
    apply andb_true_iff. split; [apply Nat.ltb_lt; lia | now apply IH].
Qed.

Lemma ravel_nth_indices sh k d :
  k < numel sh -> ravel sh (nth k (indices sh) d) = k.
Proof.
  revert k d. induction sh as [|n sh IH]; intros k d Hk; simpl in *.
  - destruct k; [reflexivity | lia].
  - assert (HP : numel sh <> 0) by (intros E; rewrite E in Hk; lia).
    pose proof (Nat.div_mod_eq k (numel sh)) as Hdm.
    pose proof (Nat.mod_upper_bound k (numel sh) HP) as Hr.
    assert (Hq : k / numel sh < n).
    { apply Nat.Div0.div_lt_upper_bound. lia. }
    set (q := k / numel sh) in *. set (r := k mod numel sh) in *.
    replace k with (q * numel sh + r) at 1 by lia.
    rewrite flat_map_concat_map, nth_concat_uniform.
    + rewrite nth_indep with (d' := map (cons q) (indices sh))
        by (now rewrite length_map, length_seq).
      rewrite map_nth with (f := fun i => map (cons i) (indices sh)).
      rewrite seq_nth by assumption. simpl.
      rewrite nth_indep with (d' := q :: d)
        by (now rewrite length_map, length_indices).
      rewrite map_nth with (f := cons q). simpl.
      rewrite IH by assumption. lia.
    + apply Forall_forall. intros b Hin.
      apply in_map_iff in Hin. destruct Hin as [j [<- _]].
      now rewrite length_map, length_indices.
    + now rewrite length_map, length_seq.
    + assumption.
Qed.

(** ** Arrays and their entries *)

Section ArrayFacts.
Context {R : Type} `{Scalar R}.

Lemma wf_mkarray sh (f : list nat -> R) : wf (mkarray sh f).
Proof. unfold wf, size, mkarray; simpl. now rewrite length_map, length_indices. Qed.

Lemma item_mkarray sh (f : list nat -> R) idx :
  in_bounds sh idx = true -> item (mkarray sh f) idx = f idx.
Proof.
  intros Hb. unfold item, mkarray; simpl.
  rewrite nth_indep with (d' := f idx)
    by (rewrite length_map, length_indices; now apply ravel_lt).
  rewrite map_nth. f_equal. now apply nth_indices.
Qed.

Lemma mkarray_ext sh (f g : list nat -> R) :
  (forall idx, in_bounds sh idx = true -> f idx = g idx) ->
  mkarray sh f = mkarray sh g.
Proof.
  intros Hfg. unfold mkarray. f_equal.
  apply map_ext_in. intros idx Hin. apply Hfg. now apply in_indices.
Qed.

Lemma mkarray_item (a : ndarray R) : wf a -> mkarray (shape a) (item a) = a.
Proof.
  destruct a as [sh d]. unfold wf, size, mkarray; simpl. intros Hlen.
  f_equal. apply nth_ext with (d := szero) (d' := szero).
  - now rewrite length_map, length_indices.
  - intros n Hn. rewrite length_map, length_indices in Hn.
    rewrite nth_indep with (d' := item (mk_ndarray sh d) [])
      by (now rewrite length_map, length_indices).
    rewrite map_nth. unfold item; simpl.
    now rewrite ravel_nth_indices.
Qed.

Lemma array_ext (a b : ndarray R) :
  wf a -> wf b -> shape a = shape b ->
  (forall idx, in_bounds (shape a) idx = true -> item a idx = item b idx) ->
  a = b.
Proof.
  intros Ha Hb Hs Hi.
  rewrite <- (mkarray_item a Ha), <- (mkarray_item b Hb), <- Hs.
  now apply mkarray_ext.
Qed.

Lemma comprehension_ok {E A B} (f : A -> result E B) (g : A -> B) l :
  (forall x, In x l -> f x = Ok (g x)) ->
  comprehension f l = Ok (map g l).
Proof.
  induction l as [|x l IH]; intros Hf; simpl; [reflexivity|].
  rewrite Hf by (now left). simpl.
  rewrite IH by (intros y Hy; apply Hf; now right). reflexivity.
Qed.

Lemma comprehension_raise {E A B} (f : A -> result E B) x l e :
  f x = Raise e -> comprehension f (x :: l) = Raise e.
Proof. intros Hf. simpl. now rewrite Hf. Qed.

Lemma getitem_channel (cube : ndarray R) X Y C c :
  shape cube = [X; Y; C] -> c < C -> getitem cube c = Ok (channel cube c).
Proof.
  intros Hs Hc. unfold getitem, channel. rewrite Hs.
  apply Nat.ltb_lt in Hc. rewrite Hc. simpl firstn. f_equal.
  apply mkarray_ext. intros [|x [|y [|z idx]]] Hb; simpl in Hb;
    try discriminate; try reflexivity;
    rewrite !andb_false_r in Hb; discriminate.
Qed.

Lemma shape_channel (cube : ndarray R) X Y C c :
  shape cube = [X; Y; C] -> shape (channel cube c) = [X; Y].
Proof. intros Hs. unfold channel. now rewrite Hs. Qed.

Lemma item_channel (cube : ndarray R) X Y C c x y :
  shape cube = [X; Y; C] -> x < X -> y < Y ->
  item (channel cube c) [x; y] = item cube [x; y; c].
Proof.
  intros Hs Hx Hy. unfold channel. rewrite Hs. simpl firstn.
  rewrite item_mkarray; [reflexivity|].
  simpl. apply Nat.ltb_lt in Hx, Hy. now rewrite Hx, Hy.
Qed.

(** Stacking [C >= 1] planes of one shape. *)
Lemma jnp_array_planes (plane : nat -> ndarray R) X Y C :
  1 <= C ->
  (forall c, shape (plane c) = [X; Y]) ->
  (forall c, wf (plane c)) ->
  jnp_array (map plane (seq 0 C)) = Ok (collected X Y C plane).
Proof.
  intros HC Hsh Hwf. unfold jnp_array.
  destruct C as [|C]; [lia|].
  remember (S C) as C' eqn:EC.
  assert (Hne : map plane (seq 0 C') = plane 0 :: map plane (seq 1 C)).
  { subst C'. reflexivity. }
  rewrite Hne.
  replace (forallb _ _) with true.
  2:{ symmetry. apply forallb_forall. intros b Hb.
      apply in_map_iff in Hb. destruct Hb as [c [<- _]].
      unfold shape_eqb. rewrite !Hsh.
      destruct (list_eq_dec Nat.eq_dec [X; Y] [X; Y]); congruence. }
  rewrite <- Hne. rewrite length_map, length_seq, Hsh.
  unfold collected, mkarray. f_equal. f_equal.
  assert (Hall : Forall (fun b : list R => length b = numel [X; Y])
                   (map (@data R) (map plane (seq 0 C')))).
  { apply Forall_forall. intros b Hb.
    apply in_map_iff in Hb. destruct Hb as [a [<- Ha]].
    apply in_map_iff in Ha. destruct Ha as [c [<- _]].
    specialize (Hwf c). unfold wf, size in Hwf. now rewrite Hwf, Hsh. }
  apply nth_ext with (d := szero) (d' := szero).
  - rewrite (length_concat_uniform _ _ Hall).
    rewrite !length_map, length_seq, length_indices. reflexivity.
  - intros n Hn.
    rewrite (length_concat_uniform _ _ Hall) in Hn.
    rewrite !length_map, length_seq in Hn.
    assert (Hn' : n < numel [C'; X; Y]) by (simpl in *; lia).
    rewrite <- (ravel_nth_indices [C'; X; Y] n [] Hn') at 1.
    pose proof (@nth_In _ n (indices [C'; X; Y]) []) as Hin.
    rewrite length_indices in Hin. specialize (Hin Hn').
    apply in_indices in Hin.
    match goal with
    | |- _ = nth n (map ?F ?l) _ =>
        transitivity (F (nth n l []));
        [ | symmetry; exact (map_nth F l [] n) ]
    end.
    destruct (nth n (indices [C'; X; Y]) []) as [|c [|x [|y [|z idx]]]];
      simpl in Hin; try (rewrite ?andb_false_r in Hin; discriminate Hin).
    apply andb_true_iff in Hin. destruct Hin as [Hc Hin].
    apply Nat.ltb_lt in Hc.
    assert (Hxy : in_bounds [X; Y] [x; y] = true) by exact Hin.
    change (ravel [C'; X; Y] [c; x; y])
      with (c * numel [X; Y] + ravel [X; Y] [x; y]).
    rewrite nth_concat_uniform; try assumption.
    + rewrite map_map.
      rewrite nth_indep with (d' := data (plane c))
        by (now rewrite length_map, length_seq).
      rewrite map_nth with (f := fun c => data (plane c)).
      rewrite seq_nth by assumption. simpl Nat.add.
      unfold item. now rewrite Hsh.
    + now rewrite !length_map, length_seq.
    + now apply ravel_lt.
Qed.

Lemma transpose_collected (a : ndarray R) X Y C :
  shape a = [C; X; Y] ->
  transpose a [1; 2; 0] = Ok (reordered X Y C a).
Proof.
  intros Hs. unfold transpose, ndim. rewrite Hs. simpl.
  unfold reordered. f_equal. apply mkarray_ext.
  intros [|x [|y [|c [|z idx]]]] Hb; simpl in Hb;
    try (rewrite ?andb_false_r in Hb; discriminate Hb).
  reflexivity.
Qed.

End ArrayFacts.

(** ** The outcome and the value of [apply_psf] *)

Section ApplyPsfFacts.
Context {R : Type} `{Scalar R}.

Lemma convolve2d_shape (in1 in2 : ndarray R) :
  map_result (@shape R) (convolve2d in1 in2)
  = convolve2d_outcome (shape in1) (shape in2).
Proof.
  unfold convolve2d, convolve2d_outcome, size.
  destruct (shape in1) as [|X1 [|Y1 [|Z1 s1]]]; try reflexivity.
  destruct (shape in2) as [|X2 [|Y2 [|Z2 s2]]]; try reflexivity.
  destruct ((numel [X1; Y1] =? 0) || (numel [X2; Y2] =? 0));
    [reflexivity|].
  destruct (negb ((X2 <=? X1) && (Y2 <=? Y1) || (X1 <=? X2) && (Y1 <=? Y2)));
    reflexivity.
Qed.

Lemma convolve2d_value (in1 in2 : ndarray R) X1 Y1 X2 Y2 sh :
  shape in1 = [X1; Y1] -> shape in2 = [X2; Y2] ->
  convolve2d_outcome [X1; Y1] [X2; Y2] = Ok sh ->
  convolve2d in1 in2 = Ok (same_mode in1 in2 X1 Y1 X2 Y2).
Proof.
  intros H1 H2. unfold convolve2d, convolve2d_outcome, size.
  rewrite H1, H2.
  destruct ((numel [X1; Y1] =? 0) || (numel [X2; Y2] =? 0));
    [discriminate|].
  destruct (negb ((X2 <=? X1) && (Y2 <=? Y1) || (X1 <=? X2) && (Y1 <=? Y2)));
    [discriminate | reflexivity].
Qed.

Lemma convolve2d_outcome_ok s1 s2 sh :
  convolve2d_outcome s1 s2 = Ok sh ->
  exists X1 Y1 X2 Y2,
    s1 = [X1; Y1] /\ s2 = [X2; Y2] /\ sh = [X1; Y1] /\
    1 <= X1 /\ 1 <= Y1 /\ 1 <= X2 /\ 1 <= Y2 /\
    ((X2 <= X1 /\ Y2 <= Y1) \/ (X1 <= X2 /\ Y1 <= Y2)).
Proof.
  unfold convolve2d_outcome.
  destruct s1 as [|X1 [|Y1 [|Z1 s1]]]; try discriminate.
  destruct s2 as [|X2 [|Y2 [|Z2 s2]]]; try discriminate.
  destruct ((numel [X1; Y1] =? 0) || (numel [X2; Y2] =? 0)) eqn:E0;
    [discriminate|].
  destruct ((X2 <=? X1) && (Y2 <=? Y1) || (X1 <=? X2) && (Y1 <=? Y2)) eqn:E1;
    simpl; [|discriminate].
  intros [= <-]. exists X1, Y1, X2, Y2.
  apply orb_false_iff in E0. destruct E0 as [Ea Eb].
  apply Nat.eqb_neq in Ea, Eb. simpl in Ea, Eb.
  repeat split; try lia.
  apply orb_true_iff in E1.
  destruct E1 as [E1|E1]; apply andb_true_iff in E1; destruct E1 as [Ha Hb];
    apply Nat.leb_le in Ha, Hb; [left | right]; split; assumption.
Qed.

Lemma convolve2d_outcome_fits X1 Y1 X2 Y2 :
  1 <= X1 -> 1 <= Y1 -> 1 <= X2 -> 1 <= Y2 ->
  (X2 <= X1 /\ Y2 <= Y1) \/ (X1 <= X2 /\ Y1 <= Y2) ->
  convolve2d_outcome [X1; Y1] [X2; Y2] = Ok [X1; Y1].
Proof.
  intros HX1 HY1 HX2 HY2 Hfit. unfold convolve2d_outcome.
  replace ((numel [X1; Y1] =? 0) || (numel [X2; Y2] =? 0)) with false.
  2:{ symmetry. apply orb_false_iff.
      split; apply Nat.eqb_neq; simpl; nia. }
  replace ((X2 <=? X1) && (Y2 <=? Y1) || (X1 <=? X2) && (Y1 <=? Y2))
    with true; [reflexivity|].
  symmetry. apply orb_true_iff.
  destruct Hfit as [[Ha Hb]|[Ha Hb]]; [left | right];
    apply andb_true_iff; split; now apply Nat.leb_le.
Qed.

(** The value of [apply_psf] where the shapes are accepted. *)
Lemma apply_psf_value (cube k : ndarray R) X Y C kh kw sh :
  shape cube = [X; Y; C] -> shape k = [kh; kw] -> 1 <= C ->
  convolve2d_outcome [X; Y] [kh; kw] = Ok sh ->
  apply_psf cube k
  = Ok (reordered X Y C
          (collected X Y C
             (fun c => same_mode (channel cube c) k X Y kh kw))).
Proof.
  intros Hs Hk HC Hout. unfold apply_psf. rewrite Hs.
  change (tuple_get [X; Y; C] 2) with (@Ok exn nat C). cbn [bind].
  rewrite comprehension_ok
    with (g := fun c => same_mode (channel cube c) k X Y kh kw).
  - cbn [bind]. unfold range.
    rewrite jnp_array_planes
      with (plane := fun c => same_mode (channel cube c) k X Y kh kw)
           (X := X) (Y := Y); try assumption.
    + cbn [bind]. rewrite transpose_collected with (X := X) (Y := Y) (C := C);
        reflexivity.
    + reflexivity.
    + intros c. apply wf_mkarray.
  - intros c Hc. apply in_seq in Hc.
    rewrite (getitem_channel cube X Y C c Hs) by lia. cbn [bind].
    unfold _convolve_plane.
    apply convolve2d_value with (sh := sh); try assumption.
    now apply shape_channel with (C := C).
Qed.

(** The outcome of [apply_psf] is decided by the shapes alone. *)
Lemma apply_psf_shape (cube k : ndarray R) :
  map_result (@shape R) (apply_psf cube k)
  = apply_psf_outcome (shape cube) (shape k).
Proof.
  destruct (shape cube) as [|X [|Y [|C rest]]] eqn:Hs;
    try (unfold apply_psf; rewrite Hs; reflexivity).
  unfold apply_psf_outcome.
  destruct C as [|C].
  { unfold apply_psf. rewrite Hs. reflexivity. }
  destruct (convolve2d_outcome (X :: Y :: rest) (shape k)) as [sh|e] eqn:Ho.
  - destruct (convolve2d_outcome_ok _ _ _ Ho)
      as (X1 & Y1 & kh & kw & E1 & E2 & E3 & _).
    injection E1 as Ea Eb Ec. subst X1 Y1 rest.
    rewrite E2 in Ho.
    assert (HC : 1 <= S C) by lia.
    rewrite (apply_psf_value cube k X Y (S C) kh kw sh Hs E2 HC Ho). reflexivity.
  - unfold apply_psf. rewrite Hs.
    change (tuple_get (X :: Y :: S C :: rest) 2) with (@Ok exn nat (S C)).
    cbn [bind]. unfold range. simpl seq.
    rewrite comprehension_raise with (e := e); [reflexivity|].
    unfold getitem. rewrite Hs. simpl. unfold _convolve_plane.
    pose proof (convolve2d_shape
      (mkarray (X :: Y :: rest)
         (fun idx => match idx with
                     | x :: y :: r => item cube (x :: y :: 0 :: r)
                     | _ => szero
                     end)) k) as Hc.
    unfold mkarray in Hc at 2. simpl shape in Hc. rewrite Ho in Hc.
    destruct (convolve2d _ k); simpl in Hc; congruence.
Qed.

Lemma apply_psf_item (cube k out : ndarray R) X Y C kh kw x y c :
  shape cube = [X; Y; C] -> shape k = [kh; kw] ->
  apply_psf cube k = Ok out ->
  x < X -> y < Y -> c < C ->
  item out [x; y; c]
  = convolve_full (channel cube c) k
      (x + centered_start (X + kh - 1) X)
      (y + centered_start (Y + kw - 1) Y).
Proof.
  intros Hs Hk Hout Hx Hy Hc.
  pose proof (apply_psf_shape cube k) as Hsh.
  rewrite Hout, Hs, Hk in Hsh.
  destruct C as [|C']; [lia|].
  unfold apply_psf_outcome in Hsh. cbn [map_result] in Hsh.
  destruct (convolve2d_outcome [X; Y] [kh; kw]) as [sh|e] eqn:Ho;
    [|discriminate].
  assert (HC : 1 <= S C') by lia.
  rewrite (apply_psf_value cube k X Y (S C') kh kw sh Hs Hk HC Ho) in Hout.
  injection Hout as <-.
  apply Nat.ltb_lt in Hx, Hy, Hc.
  unfold reordered. rewrite item_mkarray by (simpl; now rewrite Hx, Hy, Hc).
  unfold collected. rewrite item_mkarray by (simpl; now rewrite Hx, Hy, Hc).
  unfold same_mode. rewrite item_mkarray by (simpl; now rewrite Hx, Hy).
  reflexivity.
Qed.

End ApplyPsfFacts.

(** ** Sums in a commutative ring *)

Section Sums.
Context {R : Type} `{Scalar R}.
Hypothesis Rth : ring_theory szero sone sadd smul ssub sopp (@eq R).
Add Ring scalar_ring : Rth.

Lemma sum_upto_S n (f : nat -> R) :
  sum_upto (S n) f = sadd (sum_upto n f) (f n).
Proof.
  unfold sum_upto. rewrite seq_S, map_app. simpl.
  generalize (map f (seq 0 n)). intros l.
  induction l as [|x l IH]; simpl; [ring | rewrite IH; ring].
Qed.

Lemma sum_upto_ext n (f g : nat -> R) :
  (forall a, a < n -> f a = g a) -> sum_upto n f = sum_upto n g.
Proof.
  intros Hfg. unfold sum_upto. f_equal. apply map_ext_in.
  intros a Ha. apply in_seq in Ha. apply Hfg. lia.
Qed.

Lemma sum_upto_zero n : sum_upto n (fun _ => szero) = szero.
Proof.
  induction n as [|n IH]; [reflexivity|].
  rewrite sum_upto_S, IH. ring.
Qed.

Lemma sum_upto_add n (f g : nat -> R) :
  sum_upto n (fun a => sadd (f a) (g a))
  = sadd (sum_upto n f) (sum_upto n g).
Proof.
  induction n as [|n IH]; [simpl; unfold sum_upto; simpl; ring|].
  rewrite !sum_upto_S, IH. ring.
Qed.

Lemma sum_upto_scale n s (f : nat -> R) :
  sum_upto n (fun a => smul s (f a)) = smul s (sum_upto n f).
Proof.
  induction n as [|n IH]; [unfold sum_upto; simpl; ring|].
  rewrite !sum_upto_S, IH. ring.
Qed.

Lemma sum_upto_if (c : bool) n (f : nat -> R) :
  sum_upto n (fun b => if c then f b else szero)
  = if c then sum_upto n f else szero.
Proof. destruct c; [reflexivity | apply sum_upto_zero]. Qed.

Lemma sum_upto_swap n m (F : nat -> nat -> R) :
  sum_upto n (fun a => sum_upto m (fun b => F a b))
  = sum_upto m (fun b => sum_upto n (fun a => F a b)).
Proof.
  induction n as [|n IH].
  - unfold sum_upto at 1. simpl. symmetry. apply sum_upto_zero.
  - rewrite sum_upto_S, IH, <- sum_upto_add.
    apply sum_upto_ext. intros b _. now rewrite sum_upto_S.
Qed.

(** A sum that keeps the single term of index [c]. *)
Lemma sum_upto_pick n (c : Z) (f : nat -> R) :
  sum_upto n (fun b => if (Z.of_nat b =? c)%Z then f b else szero)
  = if in_range c n then f (Z.to_nat c) else szero.
Proof.
  induction n as [|n IH].
  - unfold sum_upto, in_range. simpl.
    destruct (0 <=? c)%Z eqn:E1, (c <? 0)%Z eqn:E2; simpl; try reflexivity.
    apply Z.leb_le in E1. apply Z.ltb_lt in E2. lia.
  - rewrite sum_upto_S, IH. unfold in_range.
    destruct (Z.of_nat n =? c)%Z eqn:En.
    + apply Z.eqb_eq in En. subst c. rewrite Nat2Z.id.
      replace (0 <=? Z.of_nat n)%Z with true
        by (symmetry; apply Z.leb_le; lia).
      replace (Z.of_nat n <? Z.of_nat n)%Z with false
        by (symmetry; apply Z.ltb_ge; lia).
      replace (Z.of_nat n <? Z.of_nat (S n))%Z with true
        by (symmetry; apply Z.ltb_lt; lia).
      cbn [andb]. ring.
    + apply Z.eqb_neq in En.
      destruct (0 <=? c)%Z eqn:E1; cbn [andb]; [|ring].
      destruct (c <? Z.of_nat n)%Z eqn:E2.
      * apply Z.ltb_lt in E2.
        replace (c <? Z.of_nat (S n))%Z with true
          by (symmetry; apply Z.ltb_lt; lia).
        ring.
      * apply Z.ltb_ge in E2.
        replace (c <? Z.of_nat (S n))%Z with false
          by (symmetry; apply Z.ltb_ge; lia).
        ring.
Qed.

(** The two ways to enumerate the pairs [(a, b)] with [a + b = m]. *)
Lemma conv_reindex (X K : nat) (m : Z) (F : nat -> nat -> R) :
  sum_upto X (fun a =>
    if in_range (m - Z.of_nat a) K
    then F a (Z.to_nat (m - Z.of_nat a)) else szero)
  = sum_upto K (fun b =>
      if in_range (m - Z.of_nat b) X
      then F (Z.to_nat (m - Z.of_nat b)) b else szero).
Proof.
  transitivity
    (sum_upto X (fun a => sum_upto K (fun b =>
       if (Z.of_nat b =? m - Z.of_nat a)%Z then F a b else szero))).
  - apply sum_upto_ext. intros a _. symmetry.
    apply (sum_upto_pick K (m - Z.of_nat a) (F a)).
  - rewrite sum_upto_swap. apply sum_upto_ext. intros b _.
    rewrite <- (sum_upto_pick X (m - Z.of_nat b) (fun a => F a b)).
    apply sum_upto_ext. intros a _.
    replace (Z.of_nat a =? m - Z.of_nat b)%Z
      with (Z.of_nat b =? m - Z.of_nat a)%Z; [reflexivity|].
    destruct (Z.of_nat b =? m - Z.of_nat a)%Z eqn:E1;
      destruct (Z.of_nat a =? m - Z.of_nat b)%Z eqn:E2; try reflexivity.
    + apply Z.eqb_eq in E1. apply Z.eqb_neq in E2. lia.
    + apply Z.eqb_neq in E1. apply Z.eqb_eq in E2. lia.
Qed.

End Sums.

(** ** The centred full convolution is the zero-padded same-size convolution *)

Section Refinement.
Context {R : Type} `{Scalar R}.
Hypothesis Rth : ring_theory szero sone sadd smul ssub sopp (@eq R).
Add Ring scalar_ring' : Rth.

(** The full convolution sums over the entries of the plane; the same sum
    enumerated over the entries of the kernel. *)
Lemma convolve_full_comm (p k : ndarray R) X Y kh kw (m n : nat) :
  shape p = [X; Y] -> shape k = [kh; kw] ->
  convolve_full p k m n
  = sum_upto kh (fun a =>
      sum_upto kw (fun b =>
        smul (item k [a; b])
             (item_fill p (Z.of_nat m - Z.of_nat a)
                          (Z.of_nat n - Z.of_nat b)))).
Proof.
  intros Hp Hk. unfold convolve_full. rewrite Hp.
  set (M := Z.of_nat m). set (N := Z.of_nat n).
  set (H1 := fun a a' : nat =>
    sum_upto Y (fun b =>
      if in_range (N - Z.of_nat b) kw
      then smul (item p [a; b]) (item k [a'; Z.to_nat (N - Z.of_nat b)])
      else szero)).
  transitivity
    (sum_upto X (fun a =>
       if in_range (M - Z.of_nat a) kh
       then H1 a (Z.to_nat (M - Z.of_nat a)) else szero)).
  - apply sum_upto_ext. intros a _. unfold H1.
    rewrite <- (sum_upto_if Rth). apply sum_upto_ext. intros b _.
    unfold item_fill. rewrite Hk.
    destruct (in_range (M - Z.of_nat a) kh),
             (in_range (N - Z.of_nat b) kw); cbn [andb];
      try reflexivity; ring.
  - rewrite (conv_reindex Rth X kh M H1).
    apply sum_upto_ext. intros a' _. unfold H1.
    rewrite (conv_reindex Rth Y kw N
      (fun b b' => smul (item p [Z.to_nat (M - Z.of_nat a'); b])
                        (item k [a'; b']))).
    rewrite <- (sum_upto_if Rth). apply sum_upto_ext. intros b' _.
    unfold item_fill. rewrite Hp.
    destruct (in_range (M - Z.of_nat a') X),
             (in_range (N - Z.of_nat b') Y); cbn [andb];
      try reflexivity; ring.
Qed.

Lemma centered_start_center X kh : centered_start (X + kh - 1) X = center kh.
Proof.
  unfold centered_start, center. f_equal. lia.
Qed.

Lemma convolve_full_same (p k : ndarray R) X Y kh kw x y :
  shape p = [X; Y] -> shape k = [kh; kw] ->
  convolve_full p k (x + centered_start (X + kh - 1) X)
                    (y + centered_start (Y + kw - 1) Y)
  = same_convolution p k x y.
Proof.
  intros Hp Hk. rewrite (convolve_full_comm p k X Y kh kw _ _ Hp Hk).
  unfold same_convolution, zero_padded. rewrite Hk.
  rewrite !centered_start_center, !Nat2Z.inj_add. reflexivity.
Qed.

(** Where the shapes are accepted, [apply_psf] returns the datacube whose
    channels are the same-size convolutions of the input channels. *)
Lemma apply_psf_blurred (cube k : ndarray R) X Y C kh kw sh :
  shape cube = [X; Y; C] -> shape k = [kh; kw] -> 1 <= C ->
  convolve2d_outcome [X; Y] [kh; kw] = Ok sh ->
  apply_psf cube k = Ok (blurred cube k).
Proof.
  intros Hs Hk HC Ho.
  rewrite (apply_psf_value cube k X Y C kh kw sh Hs Hk HC Ho).
  f_equal. unfold reordered, blurred. rewrite Hs.
  apply mkarray_ext.
  intros [|x [|y [|c [|z idx]]]] Hb; simpl in Hb;
    try (rewrite ?andb_false_r in Hb; discriminate Hb).
  rewrite andb_true_r in Hb.
  apply andb_true_iff in Hb. destruct Hb as [Hx Hb].
  apply andb_true_iff in Hb. destruct Hb as [Hy Hc].
  unfold collected. rewrite item_mkarray by (simpl; now rewrite Hx, Hy, Hc).
  unfold same_mode. rewrite item_mkarray by (simpl; now rewrite Hx, Hy).
  apply convolve_full_same; [|assumption].
  now apply shape_channel with (C := C).
Qed.

End Refinement.

(** ** Shape of the result, rejected inputs, independence of the channels *)

Section Outcomes.
Context {R : Type} `{Scalar R}.

Lemma apply_psf_low_rank (cube k : ndarray R) :
  ndim cube < 3 -> apply_psf cube k = Raise IndexError.
Proof.
  unfold ndim, apply_psf. intros Hn.
  destruct (shape cube) as [|X [|Y [|C rest]]]; try reflexivity.
  simpl in Hn. lia.
Qed.

Lemma apply_psf_raise (cube k : ndarray R) e :
  apply_psf_outcome (shape cube) (shape k) = Raise e ->
  apply_psf cube k = Raise e.
Proof.
  intros Ho. pose proof (apply_psf_shape cube k) as Hs.
  rewrite Ho in Hs. destruct (apply_psf cube k); simpl in Hs; congruence.
Qed.

Lemma apply_psf_ok_shape (cube k out : ndarray R) :
  apply_psf cube k = Ok out ->
  apply_psf_outcome (shape cube) (shape k) = Ok (shape out).
Proof.
  intros Ho. pose proof (apply_psf_shape cube k) as Hs.
  rewrite Ho in Hs. simpl in Hs. congruence.
Qed.

(** C1 (as amended).  For a datacube of shape [(X, Y, C)] with
    [X, Y, C >= 1] and a two-dimensional kernel of shape [(kh, kw)] with
    [kh, kw >= 1] that fits into a plane along both axes or covers it along
    both axes, [apply_psf] returns a datacube of shape exactly
    [(X, Y, C)]; and whenever [apply_psf] returns on a datacube of shape
    [(X, Y, C)], the result has that shape and the kernel was such a one. *)
Theorem apply_psf_preserves_shape (cube k : ndarray R) X Y C kh kw :
  shape cube = [X; Y; C] -> shape k = [kh; kw] ->
  (1 <= X -> 1 <= Y -> 1 <= C -> 1 <= kh -> 1 <= kw ->
   (kh <= X /\ kw <= Y) \/ (X <= kh /\ Y <= kw) ->
   exists out, apply_psf cube k = Ok out /\ shape out = [X; Y; C]) /\
  (forall out, apply_psf cube k = Ok out ->
     shape out = [X; Y; C] /\
     1 <= X /\ 1 <= Y /\ 1 <= C /\ 1 <= kh /\ 1 <= kw /\
     ((kh <= X /\ kw <= Y) \/ (X <= kh /\ Y <= kw))).
Proof.
  intros Hs Hk. split.
  - intros HX HY HC Hkh Hkw Hfit.
    pose proof (convolve2d_outcome_fits X Y kh kw HX HY Hkh Hkw Hfit) as Ho.
    rewrite (apply_psf_value cube k X Y C kh kw _ Hs Hk HC Ho).
    eexists. split; reflexivity.
  - intros out Hout. apply apply_psf_ok_shape in Hout.
    rewrite Hs, Hk in Hout. unfold apply_psf_outcome in Hout.
    destruct C as [|C']; [discriminate|].
    destruct (convolve2d_outcome [X; Y] [kh; kw]) as [sh|e] eqn:Ho;
      [|discriminate].
    injection Hout as <-.
    destruct (convolve2d_outcome_ok _ _ _ Ho)
      as (X1 & Y1 & X2 & Y2 & E1 & E2 & _ & HX & HY & Hkh & Hkw & Hfit).
    injection E1 as -> ->. injection E2 as -> ->.
    repeat split; try assumption; lia.
Qed.

(** C3 (as amended).  A datacube with fewer than three dimensions makes
    [apply_psf] raise [IndexError] when it reads the third entry of the
    shape: in the store no array has been allocated by then.  For a
    datacube of shape [(X, Y, C)] with non-empty planes and [C >= 1], a
    non-empty two-dimensional kernel that is longer than a plane along one
    axis and shorter along the other is rejected with [ValueError], and a
    kernel that is at least as large as a plane along both axes is
    accepted. *)
Theorem apply_psf_rejected_shapes (cube k : ndarray R) :
  (ndim cube < 3 ->
   apply_psf cube k = Raise IndexError /\
   forall (h : Store.heap R) (d kl : Store.loc),
     nth_error h d = Some cube ->
     Store.apply_psf d kl h = (Raise IndexError, h)) /\
  (forall X Y C kh kw,
     shape cube = [X; Y; C] -> shape k = [kh; kw] ->
     1 <= X -> 1 <= Y -> 1 <= C -> 1 <= kh -> 1 <= kw ->
     ((X < kh /\ kw < Y) \/ (kh < X /\ Y < kw) ->
      apply_psf cube k = Raise ValueError) /\
     (X <= kh /\ Y <= kw -> is_ok (apply_psf cube k) = true)).
Proof.
  split.
  - intros Hn. split; [now apply apply_psf_low_rank|].
    intros h d kl Hd.
    unfold Store.apply_psf, Store.bind, Store.get_shape, Store.bind,
      Store.load, Store.ret, Store.lift.
    rewrite Hd. unfold ndim in Hn.
    destruct (shape cube) as [|X [|Y [|C rest]]]; try reflexivity.
    simpl in Hn. lia.
  - intros X Y C kh kw Hs Hk HX HY HC Hkh Hkw. split.
    + intros Hmix. apply apply_psf_raise. rewrite Hs, Hk.
      unfold apply_psf_outcome, convolve2d_outcome.
      destruct C as [|C']; [lia|].
      replace ((numel [X; Y] =? 0) || (numel [kh; kw] =? 0)) with false.
      2:{ symmetry. apply orb_false_iff.
          split; apply Nat.eqb_neq; simpl; nia. }
      replace ((kh <=? X) && (kw <=? Y) || (X <=? kh) && (Y <=? kw))
        with false; [reflexivity|].
      symmetry. apply orb_false_iff.
      split; apply andb_false_iff;
        destruct Hmix as [[Ha Hb]|[Ha Hb]];
        try (left; apply Nat.leb_gt; lia);
        try (right; apply Nat.leb_gt; lia).
    + intros Hcover.
      assert (Ho : convolve2d_outcome [X; Y] [kh; kw] = Ok [X; Y])
        by (apply convolve2d_outcome_fits; try assumption; now right).
      now rewrite (apply_psf_value cube k X Y C kh kw _ Hs Hk HC Ho).
Qed.

(** C9.  A datacube of shape [(X, Y, 0)] has no channel: the list of
    convolved planes is empty, [jnp.array] turns it into an array of shape
    [(0,)], whose transposition with the axes [(1, 2, 0)] is rejected, and
    the call fails instead of returning a datacube of shape [(X, Y, 0)]. *)
Theorem apply_psf_no_channel (cube k : ndarray R) X Y :
  shape cube = [X; Y; 0] ->
  comprehension
    (fun i => plane <- getitem cube i ;; _convolve_plane plane k)
    (range 0) = Ok [] /\
  (exists convolved,
     jnp_array (@nil (ndarray R)) = Ok convolved /\
     shape convolved = [0] /\
     transpose convolved [1; 2; 0] = Raise ValueError) /\
  apply_psf cube k = Raise ValueError /\
  (forall out, apply_psf cube k <> Ok out).
Proof.
  intros Hs. split; [reflexivity|]. split.
  - eexists. repeat split.
  - assert (Hr : apply_psf cube k = Raise ValueError).
    { unfold apply_psf. rewrite Hs. reflexivity. }
    split; [exact Hr|]. intros out Hout. congruence.
Qed.

(** C7.  Output plane [c] depends on input plane [c] and on the kernel
    only: it is [_convolve_plane] of input plane [c] with the one kernel of
    the call, for every channel; and a second datacube of the same shape
    that agrees with the first on channel [c] gives the same output plane
    [c]. *)
Theorem channels_do_not_interfere (A B k outA : ndarray R) X Y C c :
  shape A = [X; Y; C] -> shape B = [X; Y; C] -> c < C ->
  (forall x y, x < X -> y < Y -> item A [x; y; c] = item B [x; y; c]) ->
  apply_psf A k = Ok outA ->
  (forall c', c' < C ->
     _convolve_plane (channel A c') k = Ok (channel outA c')) /\
  exists outB,
    apply_psf B k = Ok outB /\ channel outA c = channel outB c.
Proof.
  intros HA HB Hc Hagree Hout.
  pose proof (apply_psf_ok_shape A k outA Hout) as Hsh.
  rewrite HA in Hsh. unfold apply_psf_outcome in Hsh.
  destruct C as [|C']; [lia|].
  destruct (convolve2d_outcome [X; Y] (shape k)) as [sh|e] eqn:Ho;
    [|discriminate].
  destruct (convolve2d_outcome_ok _ _ _ Ho)
    as (X1 & Y1 & kh & kw & E1 & Hk & _).
  injection E1 as <- <-. rewrite Hk in Ho.
  assert (HC : 1 <= S C') by lia.
  assert (Hplane : forall (D out : ndarray R) c',
    shape D = [X; Y; S C'] ->
    apply_psf D k = Ok out -> c' < S C' ->
    channel out c' = same_mode (channel D c') k X Y kh kw).
  { intros D out c' HD HoD Hc'.
    rewrite (apply_psf_value D k X Y (S C') kh kw sh HD Hk HC Ho) in HoD.
    injection HoD as <-.
    unfold channel at 1. unfold reordered at 1. simpl shape. simpl firstn.
    unfold same_mode. apply mkarray_ext.
    intros [|x [|y [|z idx]]] Hb; simpl in Hb;
      try (rewrite ?andb_false_r in Hb; discriminate Hb).
    rewrite andb_true_r in Hb.
    apply andb_true_iff in Hb. destruct Hb as [Hx Hy].
    apply Nat.ltb_lt in Hc'.
    simpl app. unfold reordered.
    rewrite item_mkarray by (simpl; now rewrite Hx, Hy, Hc').
    unfold collected.
    rewrite item_mkarray by (simpl; now rewrite Hx, Hy, Hc').
    unfold same_mode.
    rewrite item_mkarray by (simpl; now rewrite Hx, Hy).
    reflexivity. }
  split.
  - intros c' Hc'. unfold _convolve_plane.
    rewrite (Hplane A outA c' HA Hout Hc').
    apply convolve2d_value with (sh := sh); try assumption.
    now apply shape_channel with (C := S C').
  - eexists. split.
    + apply (apply_psf_value B k X Y (S C') kh kw sh HB Hk HC Ho).
    + rewrite (Hplane A outA c HA Hout Hc).
      rewrite (Hplane B _ c HB
                 (apply_psf_value B k X Y (S C') kh kw sh HB Hk HC Ho) Hc).
      replace (channel B c) with (channel A c); [reflexivity|].
      unfold channel. rewrite HA, HB. simpl firstn.
      apply mkarray_ext.
      intros [|x [|y [|z idx]]] Hb; simpl in Hb;
        try (rewrite ?andb_false_r in Hb; discriminate Hb).
      rewrite andb_true_r in Hb.
      apply andb_true_iff in Hb. destruct Hb as [Hx Hy].
      apply Nat.ltb_lt in Hx, Hy. simpl app. now apply Hagree.
Qed.

End Outcomes.

(** ** Values of the result *)

Section Values.
Context {R : Type} `{Scalar R}.
Hypothesis Rth : ring_theory szero sone sadd smul ssub sopp (@eq R).
Add Ring scalar_ring'' : Rth.

Lemma sum_upto_pick_nat n c (f : nat -> R) :
  sum_upto n (fun b => if b =? c then f b else szero)
  = if c <? n then f c else szero.
Proof.
  transitivity
    (sum_upto n (fun b =>
       if (Z.of_nat b =? Z.of_nat c)%Z then f b else szero)).
  - apply sum_upto_ext. intros b _.
    replace (Z.of_nat b =? Z.of_nat c)%Z with (b =? c); [reflexivity|].
    destruct (b =? c) eqn:E; symmetry.
    + apply Nat.eqb_eq in E. apply Z.eqb_eq. lia.
    + apply Nat.eqb_neq in E. apply Z.eqb_neq. lia.
  - rewrite (sum_upto_pick Rth). unfold in_range. rewrite Nat2Z.id.
    replace (0 <=? Z.of_nat c)%Z with true
      by (symmetry; apply Z.leb_le; lia).
    replace (Z.of_nat c <? Z.of_nat n)%Z with (c <? n); [reflexivity|].
    destruct (c <? n) eqn:E; symmetry.
    + apply Nat.ltb_lt in E. apply Z.ltb_lt. lia.
    + apply Nat.ltb_ge in E. apply Z.ltb_ge. lia.
Qed.

Lemma zero_padded_inside (p : ndarray R) X Y x y :
  shape p = [X; Y] -> x < X -> y < Y ->
  zero_padded p (Z.of_nat x) (Z.of_nat y) = item p [x; y].
Proof.
  intros Hp Hx Hy. unfold zero_padded, item_fill, in_range. rewrite Hp.
  replace (0 <=? Z.of_nat x)%Z with true by (symmetry; apply Z.leb_le; lia).
  replace (0 <=? Z.of_nat y)%Z with true by (symmetry; apply Z.leb_le; lia).
  replace (Z.of_nat x <? Z.of_nat X)%Z with true
    by (symmetry; apply Z.ltb_lt; lia).
  replace (Z.of_nat y <? Z.of_nat Y)%Z with true
    by (symmetry; apply Z.ltb_lt; lia).
  cbn [andb]. now rewrite !Nat2Z.id.
Qed.


(** C5 (as amended).  Over exact arithmetic (the entries in a commutative
    ring): for a datacube of shape [(X, Y, C)] with [X, Y, C >= 1] and a
    kernel of shape [(kh, kw)] that fits into a plane or covers it and is
    zero except for a single 1 at the index [((kh - 1) / 2, (kw - 1) / 2)],
    the centre entry of an odd axis and the lower of the two middle entries
    of an even one, [apply_psf] returns the datacube unchanged. *)
Theorem apply_psf_identity_kernel (cube k : ndarray R) X Y C kh kw :
  wf cube ->
  shape cube = [X; Y; C] -> shape k = [kh; kw] ->
  1 <= X -> 1 <= Y -> 1 <= C -> 1 <= kh -> 1 <= kw ->
  (kh <= X /\ kw <= Y) \/ (X <= kh /\ Y <= kw) ->
  (forall a b, a < kh -> b < kw ->
     item k [a; b]
     = if (a =? center kh) && (b =? center kw) then sone else szero) ->
  apply_psf cube k = Ok cube.
Proof.
  intros Hwf Hs Hk HX HY HC Hkh Hkw Hfit Hid.
  pose proof (convolve2d_outcome_fits X Y kh kw HX HY Hkh Hkw Hfit) as Ho.
  rewrite (apply_psf_blurred Rth cube k X Y C kh kw _ Hs Hk HC Ho).
  f_equal. apply array_ext.
  - apply wf_mkarray.
  - assumption.
  - reflexivity.
  - unfold blurred at 1. simpl shape. intros idx Hb.
    unfold blurred. rewrite item_mkarray by assumption.
    rewrite Hs in Hb.
    destruct idx as [|x [|y [|c [|z idx]]]]; simpl in Hb;
      try (rewrite ?andb_false_r in Hb; discriminate Hb).
    rewrite andb_true_r in Hb.
    apply andb_true_iff in Hb. destruct Hb as [Hx Hb].
    apply andb_true_iff in Hb. destruct Hb as [Hy Hc].
    apply Nat.ltb_lt in Hx, Hy, Hc.
    unfold same_convolution. rewrite Hk.
    assert (Hch : center kh < kh).
    { unfold center. apply Nat.Div0.div_lt_upper_bound. lia. }
    assert (Hcw : center kw < kw).
    { unfold center. apply Nat.Div0.div_lt_upper_bound. lia. }
    set (g := fun a b : nat =>
      zero_padded (channel cube c)
        (Z.of_nat x + Z.of_nat (center kh) - Z.of_nat a)
        (Z.of_nat y + Z.of_nat (center kw) - Z.of_nat b)).
    transitivity
      (sum_upto kh (fun a =>
         if a =? center kh
         then sum_upto kw (fun b => if b =? center kw then g a b else szero)
         else szero)).
    + apply sum_upto_ext. intros a Ha.
      rewrite <- (sum_upto_if Rth). apply sum_upto_ext. intros b Hb'.
      rewrite (Hid a b Ha Hb'). fold (g a b).
      destruct (a =? center kh), (b =? center kw); cbn [andb]; ring.
    + rewrite sum_upto_pick_nat.
      apply Nat.ltb_lt in Hch. rewrite Hch.
      rewrite sum_upto_pick_nat.
      apply Nat.ltb_lt in Hcw. rewrite Hcw.
      unfold g.
      replace (Z.of_nat x + Z.of_nat (center kh) - Z.of_nat (center kh))%Z
        with (Z.of_nat x) by lia.
      replace (Z.of_nat y + Z.of_nat (center kw) - Z.of_nat (center kw))%Z
        with (Z.of_nat y) by lia.
      rewrite (zero_padded_inside (channel cube c) X Y x y)
        by (try assumption; now apply shape_channel with (C := C)).
      now apply item_channel with (X := X) (Y := Y) (C := C).
Qed.

End Values.

(** ** Linearity *)

Section Linearity.
Context {R : Type} `{Scalar R}.
Hypothesis Rth : ring_theory szero sone sadd smul ssub sopp (@eq R).
Add Ring scalar_ring''' : Rth.

Lemma nth_map_combine (f g : R -> R) (l1 l2 : list R) n :
  n < length l1 -> n < length l2 ->
  nth n (map (fun p => sadd (fst p) (snd p))
           (combine (map f l1) (map g l2))) szero
  = sadd (f (nth n l1 szero)) (g (nth n l2 szero)).
Proof.
  revert l1 l2. induction n as [|n IH]; intros [|x l1] [|y l2] H1 H2;
    simpl in *; try lia; try reflexivity.
  apply IH; lia.
Qed.

Lemma map_combine_map {A} (f g : A -> R) (l : list A) :
  map (fun p => sadd (fst p) (snd p)) (combine (map f l) (map g l))
  = map (fun x => sadd (f x) (g x)) l.
Proof. induction l as [|x l IH]; simpl; [reflexivity | now rewrite IH]. Qed.

Lemma item_add_scale (A B : ndarray R) a b idx :
  wf A -> wf B -> shape A = shape B ->
  in_bounds (shape A) idx = true ->
  item (add (scale a A) (scale b B)) idx
  = sadd (smul a (item A idx)) (smul b (item B idx)).
Proof.
  intros HA HB Hs Hb. unfold item, add, scale; simpl.
  pose proof (ravel_lt _ _ Hb) as Hlt.
  unfold wf, size in HA, HB.
  rewrite nth_map_combine by (rewrite ?HA, ?HB, <- ?Hs; assumption).
  now rewrite <- Hs.
Qed.

Lemma zero_padded_linear (A B : ndarray R) a b X Y C c i j :
  wf A -> wf B -> shape A = [X; Y; C] -> shape B = [X; Y; C] -> c < C ->
  zero_padded (channel (add (scale a A) (scale b B)) c) i j
  = sadd (smul a (zero_padded (channel A c) i j))
         (smul b (zero_padded (channel B c) i j)).
Proof.
  intros HwA HwB HA HB Hc.
  assert (HL : shape (add (scale a A) (scale b B)) = [X; Y; C]) by exact HA.
  unfold zero_padded, item_fill.
  rewrite (shape_channel _ X Y C c HL), (shape_channel _ X Y C c HA),
    (shape_channel _ X Y C c HB).
  destruct (in_range i X) eqn:Ei; cbn [andb]; [|ring].
  destruct (in_range j Y) eqn:Ej; [|ring].
  unfold in_range in Ei, Ej.
  apply andb_true_iff in Ei, Ej.
  destruct Ei as [Ei1 Ei2], Ej as [Ej1 Ej2].
  apply Z.leb_le in Ei1, Ej1. apply Z.ltb_lt in Ei2, Ej2.
  assert (Hi : Z.to_nat i < X) by lia.
  assert (Hj : Z.to_nat j < Y) by lia.
  rewrite (item_channel _ X Y C c _ _ HL Hi Hj),
    (item_channel _ X Y C c _ _ HA Hi Hj),
    (item_channel _ X Y C c _ _ HB Hi Hj).
  apply item_add_scale; try assumption; [congruence|].
  rewrite HA. simpl.
  apply Nat.ltb_lt in Hi, Hj, Hc. now rewrite Hi, Hj, Hc.
Qed.

Lemma same_convolution_linear (A B k : ndarray R) a b X Y C c x y :
  wf A -> wf B -> shape A = [X; Y; C] -> shape B = [X; Y; C] -> c < C ->
  same_convolution (channel (add (scale a A) (scale b B)) c) k x y
  = sadd (smul a (same_convolution (channel A c) k x y))
         (smul b (same_convolution (channel B c) k x y)).
Proof.
  intros HwA HwB HA HB Hc. unfold same_convolution.
  destruct (shape k) as [|kh [|kw [|z s]]]; try ring.
  rewrite <- !(sum_upto_scale Rth), <- (sum_upto_add Rth).
  apply sum_upto_ext. intros a' _.
  rewrite <- !(sum_upto_scale Rth), <- (sum_upto_add Rth).
  apply sum_upto_ext. intros b' _.
  rewrite (zero_padded_linear A B a b X Y C c _ _ HwA HwB HA HB Hc).
  ring.
Qed.

(** C10.  [apply_psf] is linear in the datacube: for datacubes [A] and [B]
    of one shape, scalars [a] and [b] and a kernel [k],
    [apply_psf(a*A + b*B, k)] is [a*apply_psf(A, k) + b*apply_psf(B, k)];
    where [apply_psf] raises on [A], it raises the same exception on the
    combination. *)
Theorem apply_psf_linear (A B k : ndarray R) (a b : R) :
  wf A -> wf B -> shape A = shape B ->
  apply_psf (add (scale a A) (scale b B)) k
  = (outA <- apply_psf A k ;;
     outB <- apply_psf B k ;;
     Ok (add (scale a outA) (scale b outB))).
Proof.
  intros HwA HwB Hs.
  set (L := add (scale a A) (scale b B)).
  assert (HL : shape L = shape A) by reflexivity.
  destruct (apply_psf_outcome (shape A) (shape k)) as [sh|e] eqn:Ho.
  - unfold apply_psf_outcome in Ho.
    destruct (shape A) as [|X [|Y [|C rest]]] eqn:HA; try discriminate.
    destruct C as [|C']; [discriminate|].
    destruct (convolve2d_outcome (X :: Y :: rest) (shape k))
      as [sh'|e] eqn:Hc; [|discriminate].
    destruct (convolve2d_outcome_ok _ _ _ Hc)
      as (X1 & Y1 & kh & kw & E1 & Hk & _).
    injection E1 as E1a E1b E1c. subst X1 Y1 rest.
    rewrite Hk in Hc. symmetry in Hs.
    assert (HC : 1 <= S C') by lia.
    rewrite (apply_psf_blurred Rth L k X Y (S C') kh kw sh' HL Hk HC Hc).
    rewrite (apply_psf_blurred Rth A k X Y (S C') kh kw sh' HA Hk HC Hc).
    rewrite (apply_psf_blurred Rth B k X Y (S C') kh kw sh' Hs Hk HC Hc).
    cbn [bind]. f_equal.
    unfold blurred. rewrite HL, HA, Hs.
    unfold add, scale, mkarray; cbn [shape data]. f_equal.
    rewrite !map_map.
    rewrite (map_combine_map
      (fun idx => smul a match idx with
                         | [x; y; c] =>
                             same_convolution (channel A c) k x y
                         | _ => szero
                         end)
      (fun idx => smul b match idx with
                         | [x; y; c] =>
                             same_convolution (channel B c) k x y
                         | _ => szero
                         end)).
    apply map_ext_in. intros idx Hin. apply in_indices in Hin.
    destruct idx as [|x [|y [|c [|z idx]]]]; simpl in Hin;
      try (rewrite ?andb_false_r in Hin; discriminate Hin).
    rewrite andb_true_r in Hin.
    apply andb_true_iff in Hin. destruct Hin as [_ Hin].
    apply andb_true_iff in Hin. destruct Hin as [_ Hin].
    apply Nat.ltb_lt in Hin.
    now apply same_convolution_linear with (X := X) (Y := Y) (C := S C').
  - rewrite (apply_psf_raise L k e) by (now rewrite HL).
    rewrite (apply_psf_raise A k e) by assumption.
    reflexivity.
Qed.

End Linearity.

(** ** The store: [apply_psf] only allocates *)

Section StoreFacts.
Context {R : Type} `{Scalar R}.
Local Open Scope store_scope.
Import Store.

Lemma extends_refl (h : heap R) : extends h h.
Proof. exists []. now rewrite app_nil_r. Qed.

Lemma extends_trans (h1 h2 h3 : heap R) :
  extends h1 h2 -> extends h2 h3 -> extends h1 h3.
Proof.
  intros [f1 ->] [f2 ->]. exists (f1 ++ f2). now rewrite app_assoc.
Qed.

Lemma extends_lookup (h h' : heap R) l a :
  extends h h' -> nth_error h l = Some a -> nth_error h' l = Some a.
Proof.
  intros [f ->] Hl. rewrite nth_error_app1; [assumption|].
  apply nth_error_Some. congruence.
Qed.

Lemma extends_length (h h' : heap R) :
  extends h h' -> length h <= length h'.
Proof. intros [f ->]. rewrite length_app. lia. Qed.

Lemma grows_ret {A} (a : A) : grows (R := R) (ret a).
Proof. intros h. apply extends_refl. Qed.

Lemma grows_lift {A} (r : result exn A) : grows (R := R) (lift r).
Proof. intros h. apply extends_refl. Qed.

Lemma grows_load l : grows (R := R) (load l).
Proof.
  intros h. unfold load. destruct (nth_error h l); apply extends_refl.
Qed.

Lemma grows_alloc (a : ndarray R) : grows (alloc a).
Proof. intros h. now exists [a]. Qed.

Lemma grows_bind {A B} (m : M R A) (f : A -> M R B) :
  grows m -> (forall a, grows (f a)) -> grows (Store.bind m f).
Proof.
  intros Hm Hf h. unfold Store.bind. specialize (Hm h).
  destruct (m h) as [[a|e] h1]; simpl in *; [|assumption].
  apply extends_trans with (h2 := h1); [assumption | apply Hf].
Qed.

Lemma grows_comprehension {A B} (f : A -> M R B) l :
  (forall x, grows (f x)) -> grows (Store.comprehension f l).
Proof.
  intros Hf. induction l as [|x l IH]; simpl.
  - apply grows_ret.
  - apply grows_bind; [apply Hf|]. intros y.
    apply grows_bind; [apply IH|]. intros ys. apply grows_ret.
Qed.

Lemma grows_getitem_ref l i : grows (R := R) (getitem_ref l i).
Proof.
  apply grows_bind; [apply grows_load|]. intros a.
  apply grows_bind; [apply grows_lift|]. intros r. apply grows_alloc.
Qed.

Lemma grows_convolve2d_ref l1 l2 : grows (R := R) (convolve2d_ref l1 l2).
Proof.
  apply grows_bind; [apply grows_load|]. intros a.
  apply grows_bind; [apply grows_load|]. intros b.
  apply grows_bind; [apply grows_lift|]. intros r. apply grows_alloc.
Qed.

Lemma grows_jnp_array_ref ls : grows (R := R) (jnp_array_ref ls).
Proof.
  apply grows_bind; [apply grows_comprehension, grows_load|]. intros a.
  apply grows_bind; [apply grows_lift|]. intros r. apply grows_alloc.
Qed.

Lemma grows_transpose_ref l axes : grows (R := R) (transpose_ref l axes).
Proof.
  apply grows_bind; [apply grows_load|]. intros a.
  apply grows_bind; [apply grows_lift|]. intros r. apply grows_alloc.
Qed.

Lemma grows_apply_psf d k : grows (R := R) (Store.apply_psf d k).
Proof.
  apply grows_bind.
  { apply grows_bind; [apply grows_load|]. intros a. apply grows_ret. }
  intros dims. apply grows_bind; [apply grows_lift|]. intros n.
  apply grows_bind.
  { apply grows_comprehension. intros i.
    apply grows_bind; [apply grows_getitem_ref|]. intros p.
    apply grows_convolve2d_ref. }
  intros planes. apply grows_bind; [apply grows_jnp_array_ref|].
  intros convolved. apply grows_bind; [apply grows_transpose_ref|].
  intros t. apply grows_ret.
Qed.

Lemma bind_ok_inv {A B} (m : M R A) (f : A -> M R B) h b h' :
  Store.bind m f h = (Ok b, h') ->
  exists a h1, m h = (Ok a, h1) /\ f a h1 = (Ok b, h').
Proof.
  unfold Store.bind. destruct (m h) as [[a|e] h1]; intros Hb.
  - now exists a, h1.
  - discriminate.
Qed.

(** The reference that a successful [transpose] returns is a new one. *)
Lemma transpose_ref_fresh l axes (h h' : heap R) r :
  transpose_ref l axes h = (Ok r, h') ->
  r = length h /\ exists out, h' = h ++ [out].
Proof.
  intros Hr. unfold transpose_ref in Hr.
  apply bind_ok_inv in Hr. destruct Hr as (a & h1 & Hl & Hr).
  apply bind_ok_inv in Hr. destruct Hr as (t & h2 & Ht & Hr).
  unfold load in Hl. destruct (nth_error h l); [|discriminate].
  injection Hl as <- <-.
  unfold lift in Ht. injection Ht as _ <-.
  unfold alloc in Hr. injection Hr as <- <-.
  split; [reflexivity | now exists t].
Qed.

Lemma apply_psf_fresh d k (h h' : heap R) r :
  Store.apply_psf d k h = (Ok r, h') ->
  length h <= r < length h'.
Proof.
  intros Hr. unfold Store.apply_psf in Hr.
  apply bind_ok_inv in Hr. destruct Hr as (dims & h1 & H1 & Hr).
  apply bind_ok_inv in Hr. destruct Hr as (n & h2 & H2 & Hr).
  apply bind_ok_inv in Hr. destruct Hr as (planes & h3 & H3 & Hr).
  apply bind_ok_inv in Hr. destruct Hr as (conv & h4 & H4 & Hr).
  apply bind_ok_inv in Hr. destruct Hr as (t & h5 & H5 & Hr).
  unfold ret in Hr. injection Hr as <- <-.
  apply transpose_ref_fresh in H5. destruct H5 as [-> [out ->]].
  assert (E1 : extends h h1).
  { pose proof (grows_bind (load d) (fun a => ret (shape a))
                  (grows_load d) (fun a => grows_ret _) h) as G.
    unfold get_shape in H1. now rewrite H1 in G. }
  assert (E2 : extends h1 h2).
  { pose proof (grows_lift (tuple_get dims 2) h1) as G.
    now rewrite H2 in G. }
  assert (E3 : extends h2 h3).
  { pose proof (grows_comprehension
      (fun i => plane <- getitem_ref d i ;; _convolve_plane plane k)
      (range n)
      (fun i => grows_bind _ _ (grows_getitem_ref d i)
                  (fun p => grows_convolve2d_ref p k)) h2) as G.
    now rewrite H3 in G. }
  assert (E4 : extends h3 h4).
  { pose proof (grows_jnp_array_ref planes h3) as G. now rewrite H4 in G. }
  apply extends_length in E1, E2, E3, E4.
  rewrite length_app. simpl. lia.
Qed.

End StoreFacts.

(** ** The store: [apply_psf] on references computes [apply_psf] on values *)

Section StoreAdequacy.
Context {R : Type} `{Scalar R}.

Lemma lookup_new (h : Store.heap R) (a : ndarray R) :
  nth_error (h ++ [a]) (length h) = Some a.
Proof. rewrite nth_error_app2 by lia. now rewrite Nat.sub_diag. Qed.

Lemma lookup_old (h : Store.heap R) (a b : ndarray R) l :
  nth_error h l = Some a -> nth_error (h ++ [b]) l = Some a.
Proof.
  intros Hl. apply extends_lookup with (h := h); [|assumption].
  now exists [b].
Qed.

Lemma body_adequate (cube kern : ndarray R) d k i (h1 : Store.heap R) :
  nth_error h1 d = Some cube -> nth_error h1 k = Some kern ->
  match (plane <- getitem cube i ;; _convolve_plane plane kern) with
  | Ok q =>
      exists r h2,
        Store.bind (Store.getitem_ref d i)
          (fun plane => Store._convolve_plane plane k) h1 = (Ok r, h2) /\
        Store.extends h1 h2 /\ nth_error h2 r = Some q
  | Raise e =>
      exists h2,
        Store.bind (Store.getitem_ref d i)
          (fun plane => Store._convolve_plane plane k) h1 = (Raise e, h2) /\
        Store.extends h1 h2
  end.
Proof.
  intros Hd Hk.
  unfold Store.getitem_ref, Store._convolve_plane, Store.convolve2d_ref,
    _convolve_plane, Store.bind, Store.load, Store.lift, Store.alloc.
  rewrite Hd.
  destruct (getitem cube i) as [p|e]; cbn [bind].
  - rewrite lookup_new, (lookup_old h1 kern p k Hk).
    destruct (convolve2d p kern) as [q|e].
    + exists (length (h1 ++ [p])), ((h1 ++ [p]) ++ [q]).
      split; [reflexivity|]. split.
      * exists [p; q]. now rewrite <- app_assoc.
      * apply lookup_new.
    + exists (h1 ++ [p]). split; [reflexivity | now exists [p]].
  - exists h1. split; [reflexivity | apply extends_refl].
Qed.

Lemma comprehension_adequate (cube kern : ndarray R) d k l :
  forall h1 : Store.heap R,
  nth_error h1 d = Some cube -> nth_error h1 k = Some kern ->
  match comprehension
          (fun i => plane <- getitem cube i ;; _convolve_plane plane kern) l
  with
  | Ok ps =>
      exists rs h2,
        Store.comprehension
          (fun i => Store.bind (Store.getitem_ref d i)
                      (fun plane => Store._convolve_plane plane k)) l h1
        = (Ok rs, h2) /\
        Store.extends h1 h2 /\
        Forall2 (fun r p => nth_error h2 r = Some p) rs ps
  | Raise e =>
      exists h2,
        Store.comprehension
          (fun i => Store.bind (Store.getitem_ref d i)
                      (fun plane => Store._convolve_plane plane k)) l h1
        = (Raise e, h2) /\
        Store.extends h1 h2
  end.
Proof.
  induction l as [|i l IH]; intros h1 Hd Hk.
  - simpl. exists [], h1. repeat split; [apply extends_refl | constructor].
  - cbn [comprehension Store.comprehension].
    pose proof (body_adequate cube kern d k i h1 Hd Hk) as Hb.
    destruct (plane <- getitem cube i ;; _convolve_plane plane kern)
      as [q|e]; cbn [bind].
    + destruct Hb as (r & h2 & Hrun & Hext & Hr).
      specialize (IH h2 (extends_lookup h1 h2 d cube Hext Hd)
                        (extends_lookup h1 h2 k kern Hext Hk)).
      destruct (comprehension _ l) as [ps|e]; cbn [bind].
      * destruct IH as (rs & h3 & Hrun' & Hext' & Hall).
        exists (r :: rs), h3. unfold Store.bind at 1. rewrite Hrun.
        unfold Store.bind at 1. rewrite Hrun'.
        split; [reflexivity|]. split.
        -- now apply extends_trans with (h2 := h2).
        -- constructor; [|assumption].
           now apply extends_lookup with (h := h2).
      * destruct IH as (h3 & Hrun' & Hext').
        exists h3. unfold Store.bind at 1. rewrite Hrun.
        unfold Store.bind at 1. rewrite Hrun'.
        split; [reflexivity | now apply extends_trans with (h2 := h2)].
    + destruct Hb as (h2 & Hrun & Hext).
      exists h2. unfold Store.bind at 1. rewrite Hrun.
      split; [reflexivity | assumption].
Qed.

Lemma load_all (h : Store.heap R) rs ps :
  Forall2 (fun r p => nth_error h r = Some p) rs ps ->
  Store.comprehension Store.load rs h = (Ok ps, h).
Proof.
  induction 1 as [|r p rs ps Hr Hall IH]; [reflexivity|].
  cbn [Store.comprehension]. unfold Store.bind at 1. unfold Store.load at 1.
  rewrite Hr. unfold Store.bind at 1. rewrite IH. reflexivity.
Qed.

Lemma bind_run_ok {A B} (m : Store.M R A) (f : A -> Store.M R B) h a h1 :
  m h = (Ok a, h1) -> Store.bind m f h = f a h1.
Proof. intros Hm. unfold Store.bind. now rewrite Hm. Qed.

Lemma bind_run_raise {A B} (m : Store.M R A) (f : A -> Store.M R B) h e h1 :
  m h = (Raise e, h1) -> Store.bind m f h = (Raise e, h1).
Proof. intros Hm. unfold Store.bind. now rewrite Hm. Qed.

Lemma bind_lift {A B} (r : result exn A) (f : A -> Store.M R B) h :
  Store.bind (Store.lift r) f h
  = match r with Ok a => f a h | Raise e => (Raise e, h) end.
Proof. unfold Store.bind, Store.lift. now destruct r. Qed.

Lemma load_run (h : Store.heap R) l a :
  nth_error h l = Some a -> Store.load l h = (Ok a, h).
Proof. intros Hl. unfold Store.load. now rewrite Hl. Qed.

Lemma apply_psf_adequate (cube kern : ndarray R) d k (h : Store.heap R) :
  nth_error h d = Some cube -> nth_error h k = Some kern ->
  match apply_psf cube kern with
  | Ok out =>
      exists r h',
        Store.apply_psf d k h = (Ok r, h') /\ nth_error h' r = Some out
  | Raise e => exists h', Store.apply_psf d k h = (Raise e, h')
  end.
Proof.
  intros Hd Hk. unfold apply_psf, Store.apply_psf.
  assert (Hsh : Store.get_shape d h = (Ok (shape cube), h)).
  { unfold Store.get_shape.
    now rewrite (bind_run_ok _ _ h cube h (load_run h d cube Hd)). }
  rewrite (bind_run_ok _ _ h _ h Hsh), bind_lift.
  destruct (tuple_get (shape cube) 2) as [n|e]; cbn [bind];
    [|now exists h].
  pose proof (comprehension_adequate cube kern d k (range n) h Hd Hk) as Hc.
  destruct (comprehension _ (range n)) as [ps|e]; cbn [bind].
  - destruct Hc as (rs & h2 & Hrun & Hext & Hall).
    rewrite (bind_run_ok _ _ h rs h2 Hrun).
    unfold Store.jnp_array_ref.
    assert (Hja : Store.bind (Store.comprehension Store.load rs)
                    (fun arrays =>
                       Store.bind (Store.lift (jnp_array arrays)) Store.alloc)
                    h2
                  = match jnp_array ps with
                    | Ok conv => (Ok (length h2), h2 ++ [conv])
                    | Raise e => (Raise e, h2)
                    end).
    { rewrite (bind_run_ok _ _ h2 ps h2 (load_all h2 rs ps Hall)), bind_lift.
      reflexivity. }
    destruct (jnp_array ps) as [conv|e]; cbn [bind].
    + rewrite (bind_run_ok _ _ h2 _ _ Hja).
      unfold Store.transpose_ref.
      assert (Htr : Store.bind (Store.load (length h2))
                      (fun a =>
                         Store.bind (Store.lift (transpose a [1; 2; 0]))
                           Store.alloc)
                      (h2 ++ [conv])
                    = match transpose conv [1; 2; 0] with
                      | Ok out => (Ok (length (h2 ++ [conv])),
                                   (h2 ++ [conv]) ++ [out])
                      | Raise e => (Raise e, h2 ++ [conv])
                      end).
      { rewrite (bind_run_ok _ _ _ conv _
                   (load_run _ _ conv (lookup_new h2 conv))), bind_lift.
        reflexivity. }
      destruct (transpose conv [1; 2; 0]) as [out|e]; cbn [bind].
      * rewrite (bind_run_ok _ _ _ _ _ Htr). unfold Store.ret.
        exists (length (h2 ++ [conv])), ((h2 ++ [conv]) ++ [out]).
        split; [reflexivity | apply lookup_new].
      * rewrite (bind_run_raise _ _ _ _ _ Htr). now eexists.
    + rewrite (bind_run_raise _ _ _ _ _ Hja). now eexists.
  - destruct Hc as (h2 & Hrun & Hext).
    rewrite (bind_run_raise _ _ _ _ _ Hrun). now eexists.
Qed.

(** C6.  [apply_psf] only allocates: after any invocation, successful or
    not, every array object of the store, the datacube and the kernel among
    them, holds the value it held before; a returned reference designates an
    object that did not exist before the call, and that object is the value
    of [apply_psf] on the values of the datacube and of the kernel. *)
Theorem apply_psf_is_pure (h : Store.heap R) (d k : Store.loc) :
  let res := fst (Store.apply_psf d k h) in
  let h' := snd (Store.apply_psf d k h) in
  (forall l a, nth_error h l = Some a -> nth_error h' l = Some a) /\
  (forall r, res = Ok r ->
     nth_error h r = None /\ exists out, nth_error h' r = Some out) /\
  (forall cube kern,
     nth_error h d = Some cube -> nth_error h k = Some kern ->
     match res with
     | Ok r => exists out,
         apply_psf cube kern = Ok out /\ nth_error h' r = Some out
     | Raise e => apply_psf cube kern = Raise e
     end).
Proof.
  intros res h'. subst res h'.
  destruct (Store.apply_psf d k h) as [res h'] eqn:Hrun. cbn [fst snd].
  split; [|split].
  - intros l a Hl. apply extends_lookup with (h := h); [|assumption].
    pose proof (grows_apply_psf d k h) as G. now rewrite Hrun in G.
  - intros r ->. pose proof (apply_psf_fresh d k h h' r Hrun) as [Hlo Hhi].
    split.
    + apply nth_error_None. lia.
    + destruct (nth_error h' r) as [out|] eqn:E; [now exists out|].
      apply nth_error_None in E. lia.
  - intros cube kern Hd Hk.
    pose proof (apply_psf_adequate cube kern d k h Hd Hk) as Ha.
    destruct (apply_psf cube kern) as [out|e].
    + destruct Ha as (r & h2 & Hrun' & Hr).
      rewrite Hrun in Hrun'. injection Hrun' as -> ->. now exists out.
    + destruct Ha as (h2 & Hrun'). rewrite Hrun in Hrun'.
      now injection Hrun' as -> _.
Qed.

End StoreAdequacy.

(** ** The kernel builder *)

Section Gaussian.
Local Open Scope R_scope.

Lemma is_integer_iff (q : Q) :
  is_integer q = true <-> exists z : Z, (q == inject_Z z)%Q.
Proof.
  unfold is_integer, Qeq. destruct q as [n d]. simpl. split.
  - intros Hm. apply Z.eqb_eq in Hm. exists (n / Z.pos d)%Z.
    pose proof (Z.div_mod n (Z.pos d)) as Hd. lia.
  - intros [z Hz]. apply Z.eqb_eq.
    replace n with (z * Z.pos d)%Z by lia.
    apply Z.mod_mul. discriminate.
Qed.

Lemma to_int_inject (q : Q) (z : Z) : (q == inject_Z z)%Q -> to_int q = z.
Proof.
  unfold to_int, Qeq. destruct q as [n d]. simpl. intros Hz.
  replace n with (z * Z.pos d)%Z by lia.
  apply Z.div_mul. discriminate.
Qed.

Lemma is_positive_iff (q : Q) : is_positive q = true <-> (0 < q)%Q.
Proof.
  unfold is_positive. rewrite negb_true_iff. split.
  - intros Hb. apply Qnot_le_lt. intros Hle.
    apply Qle_bool_iff in Hle. congruence.
  - intros Hlt. destruct (Qle_bool q 0) eqn:E; [|reflexivity].
    apply Qle_bool_iff in E. exfalso. now apply (Qlt_not_le 0 q).
Qed.

Lemma gaussian_density_pos sigma dx dy :
  0 < sigma -> 0 < gaussian_density sigma dx dy.
Proof.
  intros Hs. unfold gaussian_density.
  apply Rmult_lt_0_compat; [|apply exp_pos].
  apply Rinv_0_lt_compat.
  pose proof PI_RGT_0 as Hpi.
  apply Rmult_lt_0_compat; [lra | now apply Rmult_lt_0_compat].
Qed.

Lemma rsum_pos (l : list R) :
  l <> [] -> Forall (fun x => 0 < x) l -> 0 < rsum l.
Proof.
  intros Hne Hall. induction Hall as [|x l Hx Hall IH]; [congruence|].
  simpl. destruct l as [|y l].
  - simpl. lra.
  - assert (0 < rsum (y :: l)) by (apply IH; discriminate). lra.
Qed.

Lemma rsum_map_div {A} (g : A -> R) (t : R) (l : list A) :
  rsum (map (fun x => g x / t) l) = rsum (map g l) / t.
Proof.
  induction l as [|x l IH]; simpl.
  - unfold Rdiv. now rewrite Rmult_0_l.
  - rewrite IH. unfold Rdiv. now rewrite Rmult_plus_distr_r.
Qed.

(** C4.  For an integer height and width that are at least 1 and a positive
    spread, the kernel builder returns a matrix of shape [height x width]
    whose entries are non-negative and sum to 1 (over the real numbers, hence
    within every tolerance). *)
Theorem gaussian_kernel_normalized (height width spread : Q) (h w : Z) :
  (height == inject_Z h)%Q -> (width == inject_Z w)%Q ->
  (1 <= h)%Z -> (1 <= w)%Z -> (0 < spread)%Q ->
  exists kernel,
    gaussian_kernel_2d height width spread = Ok kernel /\
    shape kernel = [Z.to_nat h; Z.to_nat w] /\
    wf kernel /\
    Forall (fun x => 0 <= x) (data kernel) /\
    rsum (data kernel) = 1 /\
    Rabs (rsum (data kernel) - 1) < 1 / 1000000.
Proof.
  intros Hh Hw Hh1 Hw1 Hs. unfold gaussian_kernel_2d.
  assert (E1 : is_integer height = true)
    by (apply is_integer_iff; now exists h).
  assert (E2 : is_integer width = true)
    by (apply is_integer_iff; now exists w).
  assert (E3 : is_positive height = true).
  { apply is_positive_iff. rewrite Hh. unfold Qlt, inject_Z. simpl. lia. }
  assert (E4 : is_positive width = true).
  { apply is_positive_iff. rewrite Hw. unfold Qlt, inject_Z. simpl. lia. }
  assert (E5 : is_positive spread = true) by (now apply is_positive_iff).
  rewrite E1, E2, E3, E4, E5. cbn [andb].
  rewrite (to_int_inject height h Hh), (to_int_inject width w Hw).
  set (H := Z.to_nat h). set (W := Z.to_nat w).
  set (g := fun idx : list nat =>
              match idx with
              | [i; j] =>
                  gaussian_density (Q2R spread)
                    (INR i - INR H / 2) (INR j - INR W / 2)
              | _ => 0
              end).
  set (total := rsum (map g (indices [H; W]))).
  assert (Hsigma : 0 < Q2R spread).
  { replace 0 with (Q2R 0) by (unfold Q2R; simpl; lra). now apply Qlt_Rlt. }
  assert (Hg : forall idx, In idx (indices [H; W]) -> 0 < g idx).
  { intros idx Hin. apply in_indices in Hin.
    destruct idx as [|i [|j [|z idx]]]; simpl in Hin;
      try (rewrite ?andb_false_r in Hin; discriminate Hin).
    unfold g. now apply gaussian_density_pos. }
  assert (Htotal : 0 < total).
  { apply rsum_pos.
    - intros E. apply (f_equal (@length _)) in E.
      rewrite length_map, length_indices in E. simpl in E. nia.
    - apply Forall_forall. intros x Hx. apply in_map_iff in Hx.
      destruct Hx as [idx [<- Hin]]. now apply Hg. }
  assert (Hsum : rsum (data (mkarray [H; W] (fun idx => g idx / total))) = 1).
  { unfold mkarray; cbn [data]. rewrite rsum_map_div. fold total.
    apply Rinv_r. lra. }
  exists (mkarray [H; W] (fun idx => g idx / total)).
  split; [reflexivity|]. split; [reflexivity|].
  split; [apply wf_mkarray|]. split; [|split].
  - unfold mkarray; cbn [data]. apply Forall_forall. intros x Hx.
    apply in_map_iff in Hx. destruct Hx as [idx [<- Hin]].
    apply Rlt_le. apply Rdiv_lt_0_compat; [now apply Hg | assumption].
  - exact Hsum.
  - rewrite Hsum. replace (1 - 1) with 0 by lra. rewrite Rabs_R0. lra.
Qed.

End Gaussian.

(** * Instances over the integers and the notebook's kernel *)

Lemma Z_ring : ring_theory (@szero Z _) sone sadd smul ssub sopp (@eq Z).
Proof. exact InitialRing.Zth. Qed.

(** The notebook's call on a small datacube. *)
Example apply_psf_cubeZ :
  apply_psf cubeZ kernZ
  = Ok (mk_ndarray [2; 2; 2] [7; 70; 9; 90; 11; 110; 13; 130]%Z).
Proof. reflexivity. Qed.

(** A single 1 at the upper of the two middle entries of an even kernel
    shifts the planes by one pixel. *)
Example apply_psf_upper_middle :
  apply_psf cubeZ (mk_ndarray [2; 2] [0; 0; 0; 1]%Z)
  = Ok (mk_ndarray [2; 2; 2] [0; 0; 0; 0; 0; 0; 1; 10]%Z).
Proof. reflexivity. Qed.

(** A datacube with four dimensions is rejected by the first convolution. *)
Example apply_psf_four_dimensions :
  apply_psf (mk_ndarray [1; 1; 1; 2] [5; 6]%Z) kernZ = Raise ValueError.
Proof. reflexivity. Qed.

(** C1, counterexample: a datacube of shape [(3, 1, 1)] and a kernel of shape
    [(1, 3)]; the kernel is shorter than a plane along the first axis and
    longer along the second, and the convolution rejects the pair. *)
Lemma apply_psf_shape_counterexample :
  shape columnZ = [3; 1; 1] /\ shape rowkernZ = [1; 3] /\
  wf columnZ /\ wf rowkernZ /\
  apply_psf columnZ rowkernZ = Raise ValueError /\
  ~ (exists out, apply_psf columnZ rowkernZ = Ok out
                 /\ shape out = [3; 1; 1]).
Proof.
  repeat split. intros [out [Hout _]]. discriminate Hout.
Qed.

Lemma apply_psf_preserves_shape_witness :
  shape cubeZ = [2; 2; 2] /\ shape kernZ = [3; 3] /\
  exists out, apply_psf cubeZ kernZ = Ok out /\ shape out = [2; 2; 2].
Proof.
  split; [reflexivity|]. split; [reflexivity|].
  apply (proj1 (apply_psf_preserves_shape cubeZ kernZ 2 2 2 3 3
                  eq_refl eq_refl)); try lia.
Defined.


(** C3, counterexample: the kernel of shape [(3, 3)] is larger than the plane
    of shape [(1, 1)] along both axes, and [apply_psf] returns. *)
Lemma apply_psf_large_kernel_counterexample :
  shape pixelZ = [1; 1; 1] /\ shape kernZ = [3; 3] /\
  apply_psf pixelZ kernZ = Ok (mk_ndarray [1; 1; 1] [10%Z]) /\
  (forall e, apply_psf pixelZ kernZ <> Raise e).
Proof. repeat split. intros e He. discriminate He. Qed.

Lemma apply_psf_rejected_shapes_witness :
  (ndim imageZ < 3 /\ apply_psf imageZ kernZ = Raise IndexError /\
   Store.apply_psf 0 1 [imageZ; kernZ] = (Raise IndexError, [imageZ; kernZ]))
  /\
  (shape columnZ = [3; 1; 1] /\ shape rowkernZ = [1; 3] /\
   apply_psf columnZ rowkernZ = Raise ValueError).
Proof.
  split.
  - assert (Hn : ndim imageZ < 3) by (unfold ndim; simpl; lia).
    destruct (proj1 (apply_psf_rejected_shapes imageZ kernZ) Hn) as [Hr Hs].
    split; [exact Hn|]. split; [exact Hr|].
    exact (Hs [imageZ; kernZ] 0 1 eq_refl).
  - split; [reflexivity|]. split; [reflexivity|].
    apply (proj2 (apply_psf_rejected_shapes columnZ rowkernZ) 3 1 1 1 3
             eq_refl eq_refl); try lia.
Defined.

(** C5, counterexample: a datacube without channels and the identity kernel of
    shape [(3, 3)]; the call raises and does not return the datacube.  And in
    floating-point arithmetic, a datacube with an infinite entry and the
    identity kernel of shape [(1, 2)]: the zero entry of the kernel times the
    infinite entry is NaN, and the datacube does not come back. *)
Lemma apply_psf_identity_counterexample :
  (shape emptyZ = [2; 2; 0] /\ wf emptyZ /\
   identity_kernel 3 3 = mk_ndarray [3; 3] [0; 0; 0; 0; 1; 0; 0; 0; 0]%Z /\
   apply_psf emptyZ (identity_kernel 3 3) = Raise ValueError /\
   apply_psf emptyZ (identity_kernel 3 3) <> Ok emptyZ) /\
  (shape rowF = [1; 2; 1] /\ wf rowF /\
   identity_kernel 1 2 = mk_ndarray [1; 2] [1%float; 0%float] /\
   apply_psf rowF (identity_kernel 1 2)
   = Ok (mk_ndarray [1; 2; 1] [PrimFloat.infinity; PrimFloat.nan]) /\
   apply_psf rowF (identity_kernel 1 2) <> Ok rowF).
Proof.
  split.
  - repeat split. intros He. discriminate He.
  - assert (Hrun : apply_psf rowF (identity_kernel 1 2)
                   = Ok (mk_ndarray [1; 2; 1]
                           [PrimFloat.infinity; PrimFloat.nan]))
      by (vm_compute; reflexivity).
    repeat split; try exact Hrun.
    rewrite Hrun. intros He.
    apply (f_equal (fun r => match r with
                             | Ok a => PrimFloat.is_nan (nth 1 (data a) 0%float)
                             | Raise _ => false
                             end)) in He.
    vm_compute in He. discriminate He.
Qed.

Lemma apply_psf_identity_kernel_witness :
  wf cubeZ /\ shape cubeZ = [2; 2; 2] /\
  identity_kernel 3 3 = mk_ndarray [3; 3] [0; 0; 0; 0; 1; 0; 0; 0; 0]%Z /\
  apply_psf cubeZ (identity_kernel 3 3) = Ok cubeZ.
Proof.
  split; [reflexivity|]. split; [reflexivity|]. split; [reflexivity|].
  apply (apply_psf_identity_kernel Z_ring cubeZ (identity_kernel 3 3)
           2 2 2 3 3); try reflexivity; try lia.
  intros a b Ha Hb.
  destruct a as [|[|[|a]]]; [| | |lia];
    (destruct b as [|[|[|b]]]; [| | |lia]); reflexivity.
Defined.

Lemma apply_psf_is_pure_witness :
  fst (Store.apply_psf 0 1 [cubeZ; kernZ]) = Ok 7 /\
  nth_error (snd (Store.apply_psf 0 1 [cubeZ; kernZ])) 0 = Some cubeZ /\
  nth_error (snd (Store.apply_psf 0 1 [cubeZ; kernZ])) 1 = Some kernZ /\
  nth_error [cubeZ; kernZ] 7 = None.
Proof.
  destruct (apply_psf_is_pure [cubeZ; kernZ] 0 1) as (Hold & Hnew & _).
  split; [reflexivity|].
  split; [exact (Hold 0 cubeZ eq_refl)|].
  split; [exact (Hold 1 kernZ eq_refl)|].
  exact (proj1 (Hnew 7 eq_refl)).
Defined.

Lemma channels_do_not_interfere_witness :
  cubeZ <> cubeZ' /\
  exists outB,
    apply_psf cubeZ' kernZ = Ok outB /\
    channel (mk_ndarray [2; 2; 2] [7; 70; 9; 90; 11; 110; 13; 130]%Z) 0
    = channel outB 0.
Proof.
  split; [discriminate|].
  apply (channels_do_not_interfere cubeZ cubeZ' kernZ
           (mk_ndarray [2; 2; 2] [7; 70; 9; 90; 11; 110; 13; 130]%Z)
           2 2 2 0 eq_refl eq_refl); try lia; try reflexivity.
  intros x y Hx Hy.
  destruct x as [|[|x]]; [| |lia];
    (destruct y as [|[|y]]; [| |lia]); reflexivity.
Defined.

Lemma apply_psf_no_channel_witness :
  shape emptyZ = [2; 2; 0] /\ apply_psf emptyZ kernZ = Raise ValueError.
Proof.
  split; [reflexivity|].
  exact (proj1 (proj2 (proj2 (apply_psf_no_channel emptyZ kernZ 2 2 eq_refl)))).
Defined.

Lemma apply_psf_linear_witness :
  wf cubeZ /\ wf cubeZ' /\ shape cubeZ = shape cubeZ' /\
  apply_psf (add (scale 2%Z cubeZ) (scale 3%Z cubeZ')) kernZ
  = (outA <- apply_psf cubeZ kernZ ;;
     outB <- apply_psf cubeZ' kernZ ;;
     Ok (add (scale 2%Z outA) (scale 3%Z outB))).
Proof.
  split; [reflexivity|]. split; [reflexivity|]. split; [reflexivity|].
  apply (apply_psf_linear Z_ring cubeZ cubeZ' kernZ 2%Z 3%Z); reflexivity.
Defined.

(** The notebook's kernel, [gaussian_kernel_2d(20, 20, 3.5)]. *)
Lemma gaussian_kernel_normalized_witness :
  exists kernel,
    gaussian_kernel_2d 20 20 3.5 = Ok kernel /\
    shape kernel = [20; 20] /\
    wf kernel /\
    Forall (fun x => (0 <= x)%R) (data kernel) /\
    rsum (data kernel) = 1%R /\
    (Rabs (rsum (data kernel) - 1) < 1 / 1000000)%R.
Proof.
  apply (gaussian_kernel_normalized 20 20 3.5 20 20);
    try reflexivity; lia.
Defined.

(** * Further properties of [apply_psf] *)

(** ** Exceptions *)

Section Exceptions.
Context {R : Type} `{Scalar R}.

Lemma convolve2d_outcome_raise s1 s2 e :
  convolve2d_outcome s1 s2 = Raise e -> e = ValueError.
Proof.
  unfold convolve2d_outcome.
  destruct s1 as [|X1 [|Y1 [|Z1 s1]]]; try (intros [= <-]; reflexivity).
  destruct s2 as [|X2 [|Y2 [|Z2 s2]]]; try (intros [= <-]; reflexivity).
  destruct ((numel [X1; Y1] =? 0) || (numel [X2; Y2] =? 0));
    [intros [= <-]; reflexivity|].
  destruct (negb ((X2 <=? X1) && (Y2 <=? Y1) || (X1 <=? X2) && (Y1 <=? Y2)));
    [intros [= <-]; reflexivity | discriminate].
Qed.

Lemma apply_psf_outcome_raise sh ksh e :
  apply_psf_outcome sh ksh = Raise e ->
  (e = IndexError /\ length sh < 3) \/ (e = ValueError /\ 3 <= length sh).
Proof.
  unfold apply_psf_outcome.
  destruct sh as [|X [|Y [|C rest]]];
    try (intros [= <-]; left; split; [reflexivity | simpl; lia]).
  intros Hr. right. split; [|simpl; lia].
  destruct C as [|C']; [now injection Hr as <-|].
  destruct (convolve2d_outcome (X :: Y :: rest) ksh) as [sh'|e'] eqn:Ho;
    [discriminate|].
  injection Hr as <-. now apply convolve2d_outcome_raise in Ho.
Qed.

(** [apply_psf] raises [IndexError] exactly on the datacubes with fewer than
    three dimensions, and [ValueError] is the only other exception that a
    call raises. *)
Theorem apply_psf_exceptions (cube k : ndarray R) :
  (apply_psf cube k = Raise IndexError <-> ndim cube < 3) /\
  (forall e, apply_psf cube k = Raise e -> e = IndexError \/ e = ValueError).
Proof.
  pose proof (apply_psf_shape cube k) as Hs.
  split; [split|].
  - intros Hr. rewrite Hr in Hs. simpl in Hs. symmetry in Hs.
    apply apply_psf_outcome_raise in Hs.
    destruct Hs as [[_ Hn]|[Hv _]]; [exact Hn | discriminate Hv].
  - apply apply_psf_low_rank.
  - intros e Hr. rewrite Hr in Hs. simpl in Hs. symmetry in Hs.
    apply apply_psf_outcome_raise in Hs.
    destruct Hs as [[-> _]|[-> _]]; [now left | now right].
Qed.

(** A datacube with more than three dimensions is rejected with
    [ValueError], whatever the kernel; and so is, for a datacube with at
    least three dimensions, every kernel that is not two-dimensional. *)
Theorem apply_psf_rank_mismatch (cube k : ndarray R) :
  3 <= ndim cube -> 3 < ndim cube \/ ndim k <> 2 ->
  apply_psf cube k = Raise ValueError.
Proof.
  unfold ndim. intros H3 Hbad. apply apply_psf_raise.
  unfold apply_psf_outcome.
  destruct (shape cube) as [|X [|Y [|C rest]]]; simpl in H3; try lia.
  destruct C as [|C']; [reflexivity|].
  destruct (convolve2d_outcome (X :: Y :: rest) (shape k)) as [sh|e] eqn:Ho.
  - exfalso. destruct (convolve2d_outcome_ok _ _ _ Ho)
      as (X1 & Y1 & kh & kw & E1 & E2 & _).
    injection E1 as _ _ ->. rewrite E2 in Hbad. simpl in Hbad. lia.
  - now apply convolve2d_outcome_raise in Ho as ->.
Qed.

(** Whether a call returns, the shape of what it returns and the exception
    that it raises are decided by the shapes of the datacube and of the
    kernel: the entries play no part. *)
Theorem apply_psf_outcome_by_shape (A B k k' : ndarray R) :
  shape A = shape B -> shape k = shape k' ->
  map_result (@shape R) (apply_psf A k)
  = map_result (@shape R) (apply_psf B k').
Proof.
  intros HA Hk. now rewrite !apply_psf_shape, HA, Hk.
Qed.

(** The planes [datacube[:, :, i]], collected by [jnp.array] and transposed
    with the axes [(1, 2, 0)], are the datacube again: the collection has the
    axis order [(C, X, Y)] and the transposition undoes it. *)
Theorem slices_restack (cube : ndarray R) X Y C :
  wf cube -> shape cube = [X; Y; C] -> 1 <= C ->
  exists planes convolved,
    comprehension (getitem cube) (range C) = Ok planes /\
    jnp_array planes = Ok convolved /\
    shape convolved = [C; X; Y] /\
    transpose convolved [1; 2; 0] = Ok cube.
Proof.
  intros Hwf Hs HC.
  exists (map (channel cube) (range C)), (collected X Y C (channel cube)).
  split; [|split; [|split]].
  - apply comprehension_ok. intros c Hc. apply in_seq in Hc.
    apply getitem_channel with (X := X) (Y := Y) (C := C); [assumption | lia].
  - apply jnp_array_planes; try assumption.
    + intros c. now apply shape_channel with (C := C).
    + intros c. apply wf_mkarray.
  - reflexivity.
  - rewrite (transpose_collected _ X Y C) by reflexivity. f_equal.
    apply array_ext; [apply wf_mkarray | assumption | now rewrite Hs |].
    unfold reordered at 1. cbn [shape]. intros idx Hb.
    unfold reordered. rewrite item_mkarray by assumption.
    destruct idx as [|x [|y [|c [|z idx]]]]; simpl in Hb;
      try (rewrite ?andb_false_r in Hb; discriminate Hb).
    rewrite andb_true_r in Hb.
    apply andb_true_iff in Hb. destruct Hb as [Hx Hb].
    apply andb_true_iff in Hb. destruct Hb as [Hy Hc].
    unfold collected. rewrite item_mkarray by (simpl; now rewrite Hx, Hy, Hc).
    apply Nat.ltb_lt in Hx, Hy.
    now apply item_channel with (X := X) (Y := Y) (C := C).
Qed.

End Exceptions.

(** ** The blur as a weighted sum over a window *)

Section Window.
Context {R : Type} `{Scalar R}.
Hypothesis Rth : ring_theory szero sone sadd smul ssub sopp (@eq R).
Add Ring scalar_ring_window : Rth.

(** Entry [(x, y, c)] of a returned datacube as the sum over the kernel. *)
Lemma apply_psf_entry (cube k out : ndarray R) X Y C kh kw x y c :
  shape cube = [X; Y; C] -> shape k = [kh; kw] ->
  apply_psf cube k = Ok out ->
  x < X -> y < Y -> c < C ->
  item out [x; y; c]
  = sum_upto kh (fun a =>
      sum_upto kw (fun b =>
        smul (item k [a; b])
             (zero_padded (channel cube c)
                (Z.of_nat x + Z.of_nat (center kh) - Z.of_nat a)
                (Z.of_nat y + Z.of_nat (center kw) - Z.of_nat b)))).
Proof.
  intros Hs Hk Hout Hx Hy Hc.
  rewrite (apply_psf_item cube k out X Y C kh kw x y c Hs Hk Hout Hx Hy Hc).
  rewrite (convolve_full_same Rth (channel cube c) k X Y kh kw x y
             (shape_channel cube X Y C c Hs) Hk).
  unfold same_convolution. now rewrite Hk.
Qed.

Lemma zero_padded_channel (cube : ndarray R) X Y C c i j :
  shape cube = [X; Y; C] ->
  zero_padded (channel cube c) i j
  = if in_range i X && in_range j Y
    then item cube [Z.to_nat i; Z.to_nat j; c] else szero.
Proof.
  intros Hs. unfold zero_padded, item_fill.
  rewrite (shape_channel cube X Y C c Hs).
  destruct (in_range i X) eqn:Ei; cbn [andb]; [|reflexivity].
  destruct (in_range j Y) eqn:Ej; [|reflexivity].
  unfold in_range in Ei, Ej. apply andb_true_iff in Ei, Ej.
  destruct Ei as [Ei1 Ei2], Ej as [Ej1 Ej2].
  apply Z.leb_le in Ei1, Ej1. apply Z.ltb_lt in Ei2, Ej2.
  apply item_channel with (X := X) (Y := Y) (C := C); [assumption | lia | lia].
Qed.


(** Over exact arithmetic (the entries in a commutative ring): a kernel that
    is zero except for one entry [s] at [(a0, b0)] translates every plane by
    the offset of that entry from the centre and scales it by [s]; what is
    translated in from outside of the plane is zero. *)
Theorem apply_psf_one_hot_kernel
    (cube k out : ndarray R) X Y C kh kw a0 b0 (s : R) x y c :
  shape cube = [X; Y; C] -> shape k = [kh; kw] ->
  a0 < kh -> b0 < kw ->
  (forall a b, a < kh -> b < kw ->
     item k [a; b] = if (a =? a0) && (b =? b0) then s else szero) ->
  apply_psf cube k = Ok out ->
  x < X -> y < Y -> c < C ->
  item out [x; y; c]
  = let i := (Z.of_nat x + Z.of_nat (center kh) - Z.of_nat a0)%Z in
    let j := (Z.of_nat y + Z.of_nat (center kw) - Z.of_nat b0)%Z in
    if in_range i X && in_range j Y
    then smul s (item cube [Z.to_nat i; Z.to_nat j; c])
    else szero.
Proof.
  intros Hs Hk Ha0 Hb0 Hhot Hout Hx Hy Hc. cbv zeta.
  rewrite (apply_psf_entry cube k out X Y C kh kw x y c Hs Hk Hout Hx Hy Hc).
  set (g := fun a b : nat =>
    zero_padded (channel cube c)
      (Z.of_nat x + Z.of_nat (center kh) - Z.of_nat a)
      (Z.of_nat y + Z.of_nat (center kw) - Z.of_nat b)).
  transitivity
    (sum_upto kh (fun a =>
       if a =? a0
       then sum_upto kw (fun b =>
              if b =? b0 then smul s (g a b) else szero)
       else szero)).
  - apply sum_upto_ext. intros a Ha.
    rewrite <- (sum_upto_if Rth). apply sum_upto_ext. intros b Hb.
    rewrite (Hhot a b Ha Hb). fold (g a b).
    destruct (a =? a0), (b =? b0); cbn [andb]; ring.
  - rewrite (sum_upto_pick_nat Rth). apply Nat.ltb_lt in Ha0. rewrite Ha0.
    rewrite (sum_upto_pick_nat Rth). apply Nat.ltb_lt in Hb0. rewrite Hb0.
    unfold g. rewrite (zero_padded_channel cube X Y C c _ _ Hs).
    destruct (in_range _ X && in_range _ Y); [reflexivity | ring].
Qed.

Lemma rsum_app (l1 l2 : list R) :
  rsum (l1 ++ l2) = sadd (rsum l1) (rsum l2).
Proof.
  induction l1 as [|x l1 IH]; simpl; [ring | rewrite IH; ring].
Qed.

Lemma rsum_flat_map {A B} (f : B -> R) (g : A -> list B) (l : list A) :
  rsum (map f (flat_map g l))
  = rsum (map (fun a => rsum (map f (g a))) l).
Proof.
  induction l as [|a l IH]; simpl; [reflexivity|].
  now rewrite map_app, rsum_app, IH.
Qed.

(** [kernel.sum()] as the double sum over the two axes. *)
Lemma kernel_sum (k : ndarray R) kh kw :
  wf k -> shape k = [kh; kw] ->
  rsum (data k)
  = sum_upto kh (fun a => sum_upto kw (fun b => item k [a; b])).
Proof.
  intros Hwf Hk.
  rewrite <- (mkarray_item k Hwf) at 1. rewrite Hk.
  unfold mkarray; cbn [data]. cbn [indices].
  rewrite rsum_flat_map. unfold sum_upto. f_equal.
  apply map_ext. intros a.
  rewrite map_map, rsum_flat_map. f_equal.
  apply map_ext. intros b. simpl. ring.
Qed.

(** Over exact arithmetic (the entries in a commutative ring): where the
    kernel's window around a pixel lies inside of the plane and the channel
    has one value [v] on it, the output pixel is [v] times the sum of the
    kernel: a kernel that sums to 1 leaves the pixel as it is. *)
Theorem apply_psf_uniform_window
    (cube k out : ndarray R) X Y C kh kw x y c (v : R) :
  wf k -> shape cube = [X; Y; C] -> shape k = [kh; kw] ->
  apply_psf cube k = Ok out ->
  c < C ->
  kh <= x + center kh + 1 -> x + center kh < X ->
  kw <= y + center kw + 1 -> y + center kw < Y ->
  (forall i j,
     x + center kh < i + kh -> i <= x + center kh ->
     y + center kw < j + kw -> j <= y + center kw ->
     item cube [i; j; c] = v) ->
  item out [x; y; c] = smul (rsum (data k)) v.
Proof.
  intros Hwf Hs Hk Hout Hc Hx1 Hx2 Hy1 Hy2 Hv.
  assert (Hx : x < X) by lia. assert (Hy : y < Y) by lia.
  rewrite (apply_psf_entry cube k out X Y C kh kw x y c Hs Hk Hout Hx Hy Hc).
  rewrite (kernel_sum k kh kw Hwf Hk).
  transitivity
    (sum_upto kh (fun a =>
       smul v (sum_upto kw (fun b => item k [a; b])))).
  - apply sum_upto_ext. intros a Ha.
    rewrite <- (sum_upto_scale Rth). apply sum_upto_ext. intros b Hb.
    rewrite (zero_padded_channel cube X Y C c _ _ Hs).
    replace (in_range (Z.of_nat x + Z.of_nat (center kh) - Z.of_nat a) X)
      with true.
    2:{ symmetry. unfold in_range. apply andb_true_iff.
        split; [apply Z.leb_le | apply Z.ltb_lt]; lia. }
    replace (in_range (Z.of_nat y + Z.of_nat (center kw) - Z.of_nat b) Y)
      with true.
    2:{ symmetry. unfold in_range. apply andb_true_iff.
        split; [apply Z.leb_le | apply Z.ltb_lt]; lia. }
    cbn [andb]. rewrite Hv by lia. ring.
  - rewrite (sum_upto_scale Rth). ring.
Qed.


End Window.

(** ** Linearity in the kernel *)

Section KernelLinearity.
Context {R : Type} `{Scalar R}.
Hypothesis Rth : ring_theory szero sone sadd smul ssub sopp (@eq R).
Add Ring scalar_ring_kernel : Rth.

Lemma same_convolution_linear_kernel
    (p k1 k2 : ndarray R) a b kh kw x y :
  wf k1 -> wf k2 -> shape k1 = [kh; kw] -> shape k2 = [kh; kw] ->
  same_convolution p (add (scale a k1) (scale b k2)) x y
  = sadd (smul a (same_convolution p k1 x y))
         (smul b (same_convolution p k2 x y)).
Proof.
  intros Hw1 Hw2 H1 H2. unfold same_convolution.
  assert (HK : shape (add (scale a k1) (scale b k2)) = [kh; kw]) by exact H1.
  rewrite HK, H1, H2.
  rewrite <- !(sum_upto_scale Rth), <- (sum_upto_add Rth).
  apply sum_upto_ext. intros a' Ha.
  rewrite <- !(sum_upto_scale Rth), <- (sum_upto_add Rth).
  apply sum_upto_ext. intros b' Hb.
  rewrite (item_add_scale k1 k2 a b [a'; b'] Hw1 Hw2).
  - ring.
  - congruence.
  - rewrite H1. simpl. apply Nat.ltb_lt in Ha, Hb. now rewrite Ha, Hb.
Qed.

(** Over exact arithmetic (the entries in a commutative ring), [apply_psf]
    is linear in the kernel: for kernels [k1] and [k2] of one shape and
    scalars [a] and [b], [apply_psf(A, a*k1 + b*k2)] is
    [a*apply_psf(A, k1) + b*apply_psf(A, k2)]; where [apply_psf] raises with
    [k1], it raises the same exception with the combination. *)
Theorem apply_psf_linear_in_kernel (A k1 k2 : ndarray R) (a b : R) :
  wf k1 -> wf k2 -> shape k1 = shape k2 ->
  apply_psf A (add (scale a k1) (scale b k2))
  = (out1 <- apply_psf A k1 ;;
     out2 <- apply_psf A k2 ;;
     Ok (add (scale a out1) (scale b out2))).
Proof.
  intros Hw1 Hw2 Hs.
  set (K := add (scale a k1) (scale b k2)).
  assert (HK : shape K = shape k1) by reflexivity.
  destruct (apply_psf_outcome (shape A) (shape k1)) as [sh|e] eqn:Ho.
  - unfold apply_psf_outcome in Ho.
    destruct (shape A) as [|X [|Y [|C rest]]] eqn:HA; try discriminate.
    destruct C as [|C']; [discriminate|].
    destruct (convolve2d_outcome (X :: Y :: rest) (shape k1))
      as [sh'|e] eqn:Hc; [|discriminate].
    destruct (convolve2d_outcome_ok _ _ _ Hc)
      as (X1 & Y1 & kh & kw & E1 & Hk1 & _).
    injection E1 as E1a E1b E1c. subst X1 Y1 rest.
    rewrite Hk1 in Hc, HK, Hs. symmetry in Hs.
    assert (HC : 1 <= S C') by lia.
    rewrite (apply_psf_blurred Rth A K X Y (S C') kh kw sh' HA HK HC Hc).
    rewrite (apply_psf_blurred Rth A k1 X Y (S C') kh kw sh' HA Hk1 HC Hc).
    rewrite (apply_psf_blurred Rth A k2 X Y (S C') kh kw sh' HA Hs HC Hc).
    cbn [bind]. f_equal.
    unfold blurred. rewrite HA.
    unfold add, scale, mkarray; cbn [shape data].
    f_equal. rewrite !map_map.
    rewrite (map_combine_map
      (fun idx => smul a match idx with
                         | [x; y; c] =>
                             same_convolution (channel A c) k1 x y
                         | _ => szero
                         end)
      (fun idx => smul b match idx with
                         | [x; y; c] =>
                             same_convolution (channel A c) k2 x y
                         | _ => szero
                         end)).
    apply map_ext_in. intros idx Hin.
    destruct idx as [|x [|y [|c [|z idx]]]]; try ring.
    unfold K.
    now apply same_convolution_linear_kernel with (kh := kh) (kw := kw).
  - rewrite (apply_psf_raise A K e) by (now rewrite HK).
    rewrite (apply_psf_raise A k1 e) by assumption.
    reflexivity.
Qed.

End KernelLinearity.

(** ** Real datacubes: the blur keeps values within their bounds *)

Section RealValues.
Local Open Scope R_scope.





End RealValues.

(** ** Instances of the further properties *)

Lemma apply_psf_rank_mismatch_witness :
  ndim hypercubeZ = 4 /\ apply_psf hypercubeZ kernZ = Raise ValueError /\
  ndim vectorZ = 1 /\ apply_psf cubeZ vectorZ = Raise ValueError.
Proof.
  split; [reflexivity|]. split.
  - apply apply_psf_rank_mismatch; unfold ndim; simpl; lia.
  - split; [reflexivity|].
    apply apply_psf_rank_mismatch; unfold ndim; simpl; lia.
Defined.

Lemma apply_psf_outcome_by_shape_witness :
  cubeZ <> cubeZ' /\ kernZ <> boxZ /\
  map_result (@shape Z) (apply_psf cubeZ kernZ)
  = map_result (@shape Z) (apply_psf cubeZ' boxZ).
Proof.
  split; [discriminate|]. split; [discriminate|].
  apply apply_psf_outcome_by_shape; reflexivity.
Defined.

Lemma slices_restack_witness :
  exists planes convolved,
    comprehension (getitem cubeZ) (range 2) = Ok planes /\
    jnp_array planes = Ok convolved /\
    shape convolved = [2; 2; 2] /\
    transpose convolved [1; 2; 0] = Ok cubeZ.
Proof.
  apply (slices_restack cubeZ 2 2 2); try reflexivity. lia.
Defined.


Lemma apply_psf_one_hot_kernel_witness :
  apply_psf cubeZ edgeZ
  = Ok (mk_ndarray [2; 2; 2] [0; 0; 3; 30; 0; 0; 9; 90]%Z) /\
  item (mk_ndarray [2; 2; 2] [0; 0; 3; 30; 0; 0; 9; 90]%Z) [1; 1; 0]
  = Z.mul 3 (item cubeZ [1; 0; 0]) /\
  item (mk_ndarray [2; 2; 2] [0; 0; 3; 30; 0; 0; 9; 90]%Z) [1; 0; 0] = 0%Z.
Proof.
  assert (Hhot : forall a b, a < 3 -> b < 3 ->
            item edgeZ [a; b] = if (a =? 1) && (b =? 2) then 3%Z else 0%Z).
  { intros a b Ha Hb.
    destruct a as [|[|[|a]]]; [| | |lia];
      (destruct b as [|[|[|b]]]; [| | |lia]); reflexivity. }
  split; [reflexivity|]. split.
  - apply (apply_psf_one_hot_kernel Z_ring cubeZ edgeZ
             (mk_ndarray [2; 2; 2] [0; 0; 3; 30; 0; 0; 9; 90]%Z)
             2 2 2 3 3 1 2 3%Z 1 1 0); try reflexivity; try lia.
    exact Hhot.
  - apply (apply_psf_one_hot_kernel Z_ring cubeZ edgeZ
             (mk_ndarray [2; 2; 2] [0; 0; 3; 30; 0; 0; 9; 90]%Z)
             2 2 2 3 3 1 2 3%Z 1 0 0); try reflexivity; try lia.
    exact Hhot.
Defined.

Lemma apply_psf_uniform_window_witness :
  rsum (data quadZ) = 10%Z /\
  item (mk_ndarray [3; 3; 1] [4; 12; 12; 16; 40; 40; 16; 40; 45]%Z) [1; 1; 0]
  = (rsum (data quadZ) * 4)%Z.
Proof.
  split; [reflexivity|].
  apply (apply_psf_uniform_window Z_ring fieldZ quadZ
           (mk_ndarray [3; 3; 1] [4; 12; 12; 16; 40; 40; 16; 40; 45]%Z)
           3 3 1 2 2 1 1 0 4%Z); try reflexivity;
    try (unfold center; simpl; lia).
  intros i j _ Hi _ Hj. unfold center in Hi, Hj. simpl in Hi, Hj.
  destruct i as [|[|i]]; [| |lia];
    (destruct j as [|[|j]]; [| |lia]); reflexivity.
Defined.


Lemma apply_psf_linear_in_kernel_witness :
  wf kernZ /\ wf boxZ /\ shape kernZ = shape boxZ /\
  apply_psf cubeZ (add (scale 2%Z kernZ) (scale 3%Z boxZ))
  = (out1 <- apply_psf cubeZ kernZ ;;
     out2 <- apply_psf cubeZ boxZ ;;
     Ok (add (scale 2%Z out1) (scale 3%Z out2))).
Proof.
  split; [reflexivity|]. split; [reflexivity|]. split; [reflexivity|].
  apply (apply_psf_linear_in_kernel Z_ring cubeZ kernZ boxZ 2%Z 3%Z);
    reflexivity.
Defined.

